(** * example.py: arithmetic helpers and a small calculator

    A shallow embedding of [example.py] and the proofs of its specification.

    Python is dynamically typed: [add], [divide], [find_max] and [factorial]
    accept any operand that implements the arithmetic and comparison
    operators.  The embedding keeps one definition per source function,
    written over the interface [Number], and instantiates it at the three
    numeric types a caller passes:
      - [Z]      for [int] (arbitrary precision),
      - [Qc]     for [fractions.Fraction] (exact rationals, kept in lowest
                 terms as [Fraction] keeps them),
      - [float]  for [float] (IEEE 754 binary64, the kernel's primitive
                 floats).
    The operands of one call share their type.  Of the coercions Python
    inserts between numeric types the embedding has one, [float * int],
    which multiplying the quotient of two [int]s by an [int] needs.
    Exceptions are values of [exn], carried by the error monad [outcome]. *)

From Stdlib Require Import ZArith QArith Qcanon Qround Qpower Qabs.
From Stdlib Require Import Lia Lqa Bool List.
From Stdlib Require Import Ascii String.
From Stdlib Require Import Floats.
From Stdlib Require Import Permutation.
Import ListNotations.

Local Open Scope Z_scope.

(** ** Exceptions and the error monad *)

(** The exceptions the module can meet.  [ValueError] carries its message;
    the two arithmetic errors are raised by the interpreter's own [/] and
    [max], never by a [raise] statement of the module. *)
Inductive exn : Type :=
| ValueError (msg : string)
| ZeroDivisionError
| OverflowError.

Inductive outcome (A : Type) : Type :=
| Return (a : A)
| Raise (e : exn).

Arguments Return {A} a.
Arguments Raise {A} e.

Definition bind {A B : Type} (m : outcome A) (k : A -> outcome B) : outcome B :=
  match m with
  | Return a => k a
  | Raise e => Raise e
  end.

Notation "x <- m ;; k" := (bind m (fun x => k))
  (at level 61, m at next level, right associativity).

(** ** The numeric interface *)

(** What the module asks of a number: the literals [0] and [1] as the
    operand's type reads them, [+], [-], [*], [==] and [<]. *)
Class Number (A : Type) : Type := {
  num_zero : A;
  num_one : A;
  num_add : A -> A -> A;
  num_sub : A -> A -> A;
  num_mul : A -> A -> A;
  num_eqb : A -> A -> bool;
  num_ltb : A -> A -> bool
}.

(** True division [a / b].  The quotient has its own type ([int / int] is a
    [float]) and the operator itself can raise. *)
Class TrueDiv (A : Type) : Type := {
  quotient : Type;
  truediv : A -> A -> outcome quotient
}.

(** *** [int] *)

#[export] Instance Number_int : Number Z := {|
  num_zero := 0;
  num_one := 1;
  num_add := Z.add;
  num_sub := Z.sub;
  num_mul := Z.mul;
  num_eqb := Z.eqb;
  num_ltb := Z.ltb
|}.

(** The integer [z] read as the exact binary fraction [z * 2^0]. *)
Definition int_as_SF (z : Z) : spec_float :=
  match z with
  | Z0 => S754_zero false
  | Zpos p => S754_finite false p 0
  | Zneg p => S754_finite true p 0
  end.

(** [int / int]: the correctly rounded binary64 quotient; a quotient beyond
    the range of [float] raises [OverflowError]. *)
Definition int_truediv (a b : Z) : outcome float :=
  if b =? 0 then Raise ZeroDivisionError
  else
    match SFdiv prec emax (int_as_SF a) (int_as_SF b) with
    | S754_infinity _ => Raise OverflowError
    | q => Return (SF2Prim q)
    end.

#[export] Instance TrueDiv_int : TrueDiv Z := {|
  quotient := float;
  truediv := int_truediv
|}.

(** [float(n)] for an [int]: the nearest binary64; an [int] beyond the range
    of [float] raises [OverflowError]. *)
Definition int_to_float (n : Z) : outcome float :=
  match binary_normalize prec emax n 0 false with
  | S754_infinity _ => Raise OverflowError
  | x => Return (SF2Prim x)
  end.

(** [x * n] for a [float] [x] and an [int] [n]: the [int] is converted
    first. *)
Definition float_mul_int (x : float) (n : Z) : outcome float :=
  y <- int_to_float n ;; Return (x * y)%float.

(** *** [fractions.Fraction] *)

Definition Qc_ltb (a b : Qc) : bool :=
  match (a ?= b)%Qc with
  | Lt => true
  | _ => false
  end.

#[export] Instance Number_Fraction : Number Qc := {|
  num_zero := 0%Qc;
  num_one := 1%Qc;
  num_add := Qcplus;
  num_sub := Qcminus;
  num_mul := Qcmult;
  num_eqb := Qc_eq_bool;
  num_ltb := Qc_ltb
|}.

Definition Fraction_truediv (a b : Qc) : outcome Qc :=
  if Qc_eq_bool b 0%Qc then Raise ZeroDivisionError
  else Return (a / b)%Qc.

#[export] Instance TrueDiv_Fraction : TrueDiv Qc := {|
  quotient := Qc;
  truediv := Fraction_truediv
|}.

(** *** [float] *)

#[export] Instance Number_float : Number float := {|
  num_zero := 0%float;
  num_one := 1%float;
  num_add := PrimFloat.add;
  num_sub := PrimFloat.sub;
  num_mul := PrimFloat.mul;
  num_eqb := PrimFloat.eqb;
  num_ltb := PrimFloat.ltb
|}.

(** [float / float] raises on a zero divisor (of either sign) and otherwise
    is the IEEE quotient, infinities and NaN included. *)
Definition float_truediv (a b : float) : outcome float :=
  if PrimFloat.eqb b 0%float then Raise ZeroDivisionError
  else Return (a / b)%float.

#[export] Instance TrueDiv_float : TrueDiv float := {|
  quotient := float;
  truediv := float_truediv
|}.

(** ** The functions of the module *)

Section Functions.

Context {A : Type} `{Number A}.

(** [def add(a, b): return a + b] *)
Definition add (a b : A) : A := num_add a b.

(** [def divide(a, b)]: the guard [b == 0], then [a / b]. *)
Definition divide `{TrueDiv A} (a b : A) : outcome quotient :=
  if num_eqb b num_zero then Raise (ValueError "Cannot divide by zero")
  else truediv a b.

(** The builtin [max] over a list: it keeps the first item and replaces it
    by each later item that compares greater; on an empty list it raises
    its own [ValueError] (with the message of CPython 3.11). *)
Definition max_step (best item : A) : A :=
  if num_ltb best item then item else best.

Definition py_max (xs : list A) : outcome A :=
  match xs with
  | [] => Raise (ValueError "max() arg is an empty sequence")
  | x :: rest => Return (fold_left max_step rest x)
  end.

(** [def find_max(numbers)]: [not numbers] is true of the empty list. *)
Definition find_max (numbers : list A) : outcome A :=
  match numbers with
  | [] => Raise (ValueError "List cannot be empty")
  | _ :: _ => py_max numbers
  end.

(** [def factorial(n)].  The recursion is not structural, so the embedding
    counts the calls still allowed: [fuel] bounds the depth of the
    recursion and [None] is the answer of a run that needs more.  The base
    case returns the literal [1], an [int]: [num_one] is that [1] as the
    operand's type reads it, the same object for an [int] operand and a
    number equal to it ([1 == Fraction(1) == 1.0]) for the others. *)
Fixpoint factorial (fuel : nat) (n : A) : option (outcome A) :=
  match fuel with
  | O => None
  | S fuel' =>
      if num_ltb n num_zero then
        Some (Raise (ValueError "Factorial not defined for negative numbers"))
      else if num_eqb n num_zero || num_eqb n num_one then
        Some (Return num_one)
      else
        match factorial fuel' (num_sub n num_one) with
        | None => None
        | Some r => Some (f <- r ;; Return (num_mul n f))
        end
  end.

End Functions.

(** ** Strings

    A string is the sequence of its characters.  The module only compares
    characters with ["@"] and ["."], so the characters of [string] stand for
    the code points of a Python [str]. *)

Local Open Scope string_scope.

(** [needle in s]: [needle] occurs in [s] as a substring. *)
Fixpoint str_in (needle s : string) : bool :=
  prefix needle s ||
  match s with
  | EmptyString => false
  | String _ s' => str_in needle s'
  end.

(** [s.split(sep)] for a separator of one character, the only kind the
    module passes: the pieces between the occurrences of [sep], empty pieces
    kept, so a string with [k] separators gives [k + 1] pieces. *)
Fixpoint split (sep : ascii) (s : string) : list string :=
  match s with
  | EmptyString => [EmptyString]
  | String c s' =>
      if Ascii.eqb c sep then EmptyString :: split sep s'
      else
        match split sep s' with
        | part :: parts => String c part :: parts
        | [] => [String c EmptyString]
        end
  end.

(** Truth value of a string: [not email] holds of the empty string only. *)
Definition str_bool (s : string) : bool :=
  match s with
  | EmptyString => false
  | String _ _ => true
  end.

(** [def is_valid_email(email)] *)
Definition is_valid_email (email : string) : bool :=
  if negb (str_bool email) || negb (str_in "@" email) || negb (str_in "." email)
  then false
  else
    let parts := split "@" email in
    if negb (Nat.eqb (List.length parts) 2) then false
    else str_in "." (nth 1 parts EmptyString).

(** ** The class [Calculator] *)

(** An instance is its one attribute; a method takes the instance and returns
    the value it returns together with the instance as the call leaves it. *)
Module Calculator.
Section Methods.

Context {A : Type} `{Number A}.

Record t : Type := { result : A }.

(** [__init__]: [self.result = 0] *)
Definition init : t := {| result := num_zero |}.

(** [self.result += value; return self.result] *)
Definition add (self : t) (value : A) : A * t :=
  let self' := {| result := num_add (result self) value |} in
  (result self', self').

(** [self.result -= value; return self.result] *)
Definition subtract (self : t) (value : A) : A * t :=
  let self' := {| result := num_sub (result self) value |} in
  (result self', self').

(** [self.result = 0; return self.result] *)
Definition reset (self : t) : A * t :=
  let self' := {| result := num_zero |} in
  (result self', self').

(** A caller's use of an instance: a sequence of method calls. *)
Inductive call : Type :=
| Add (value : A)
| Subtract (value : A)
| Reset.

Definition perform (self : t) (c : call) : A * t :=
  match c with
  | Add value => add self value
  | Subtract value => subtract self value
  | Reset => reset self
  end.

(** The values the calls return, in order, and the instance they leave. *)
Fixpoint run (self : t) (calls : list call) : list A * t :=
  match calls with
  | [] => ([], self)
  | c :: rest =>
      let (returned, self') := perform self c in
      let (returns, final) := run self' rest in
      (returned :: returns, final)
  end.

End Methods.
Arguments t A : clear implicits.
Arguments call A : clear implicits.
End Calculator.

(** ** What the specification speaks of *)

(** [n!] as the product [1 * 2 * ... * n]. *)
Definition product_1_to (n : Z) : Z :=
  fold_right Z.mul 1 (map Z.of_nat (seq 1 (Z.to_nat n))).


(** The character [c] occurs in [s]. *)
Fixpoint has_char (c : ascii) (s : string) : bool :=
  match s with
  | EmptyString => false
  | String x s' => Ascii.eqb x c || has_char c s'
  end.

(** The rule the specification gives for [is_valid_email], in its words:
    false if the string is empty, or does not contain ["@"], or does not
    contain ["."]; otherwise split on ["@"]: false unless the split yields
    exactly two parts, false unless the second part contains ["."], and true
    otherwise. *)
Definition email_rule (email : string) : bool :=
  if String.eqb email "" then false
  else if negb (has_char "@" email) then false
  else if negb (has_char "." email) then false
  else
    match split "@" email with
    | [_; second] => if negb (has_char "." second) then false else true
    | _ => false
    end.

(** The number of occurrences of [c] in [s]. *)
Fixpoint count_char (c : ascii) (s : string) : nat :=
  match s with
  | EmptyString => O
  | String x s' => (if Ascii.eqb x c then 1 else 0) + count_char c s'
  end.

(** [sep.join(parts)] *)
Fixpoint join (sep : ascii) (parts : list string) : string :=
  match parts with
  | [] => EmptyString
  | [part] => part
  | part :: rest => part ++ String sep (join sep rest)
  end.

Section CalculatorHistory.

Context {A : Type} `{Number A}.

Definition is_reset (c : Calculator.call A) : bool :=
  match c with
  | Calculator.Reset => true
  | _ => false
  end.

(** The calls made since the most recent [reset], or since construction if
    there was none. *)
Fixpoint since_reset (calls : list (Calculator.call A))
  : list (Calculator.call A) :=
  match calls with
  | [] => []
  | c :: rest =>
      if existsb is_reset rest then since_reset rest
      else if is_reset c then rest
      else c :: rest
  end.

(** The sum of the values passed to [add]. *)
Fixpoint sum_added (calls : list (Calculator.call A)) : A :=
  match calls with
  | [] => num_zero
  | Calculator.Add value :: rest => num_add value (sum_added rest)
  | _ :: rest => sum_added rest
  end.

(** The sum of the values passed to [subtract]. *)
Fixpoint sum_subtracted (calls : list (Calculator.call A)) : A :=
  match calls with
  | [] => num_zero
  | Calculator.Subtract value :: rest => num_add value (sum_subtracted rest)
  | _ :: rest => sum_subtracted rest
  end.

(** What the invariant says [result] is after [calls]. *)
Definition expected_result (calls : list (Calculator.call A)) : A :=
  num_sub (sum_added (since_reset calls)) (sum_subtracted (since_reset calls)).

(** One call counted into a running sum: [add] adds its value, [subtract]
    subtracts it. *)
Definition accumulate (r : A) (c : Calculator.call A) : A :=
  match c with
  | Calculator.Add value => num_add r value
  | Calculator.Subtract value => num_sub r value
  | Calculator.Reset => r
  end.

(** The deltas applied since the last [reset], summed from [0] in the order
    of the calls. *)
Definition running_sum (calls : list (Calculator.call A)) : A :=
  fold_left accumulate (since_reset calls) num_zero.

End CalculatorHistory.

(** Binary64 values as rationals, to measure a rounding error. *)
Section Binary64Values.

Local Open Scope Z_scope.

(** [2^e] as a rational. *)
Definition pow2 (e : Z) : Q := (2 ^ e)%Q.

(** Where a rational [y] lies between the integers [m] and [m + 1]. *)
Definition inb (m : Z) (l : location) (y : Q) : Prop :=
  match l with
  | loc_Exact => (y == inject_Z m)%Q
  | loc_Inexact Lt => (inject_Z m < y /\ y < inject_Z m + (1 # 2))%Q
  | loc_Inexact Eq => (y == inject_Z m + (1 # 2))%Q
  | loc_Inexact Gt => (inject_Z m + (1 # 2) < y /\ y < inject_Z m + 1)%Q
  end.

(** The unit roundoff of binary64 and half the spacing of its subnormal
    numbers. *)
Definition u64 : Q := pow2 (-53).

Definition eta64 : Q := pow2 (-1075).

(** The magnitude and the sign of a binary64 datum. *)
Definition SFmag (r : spec_float) : Q :=
  match r with
  | S754_finite _ m e => inject_Z (Z.pos m) * pow2 e
  | _ => 0
  end.

Definition SFsign (r : spec_float) : bool :=
  match r with
  | S754_zero s | S754_infinity s | S754_finite s _ _ => s
  | S754_nan => false
  end.

Definition SFoverflow (r : spec_float) : bool :=
  match r with
  | S754_infinity _ | S754_nan => true
  | _ => false
  end.

(** [r] is the rounding of the magnitude [x] with the sign [sx]: never NaN,
    and unless it overflows within [u64 * x + eta64] of [x]. *)
Definition rounds (r : spec_float) (sx : bool) (x : Q) : Prop :=
  r <> S754_nan
  /\ SFsign r = sx
  /\ (SFoverflow r = false ->
      (- (u64 * x + eta64) <= SFmag r - x <= u64 * x + eta64)%Q).

(** The rational a binary64 datum stands for (zero for an infinity and for
    NaN, which stand for none). *)
Definition SF2Q (r : spec_float) : Q :=
  if SFsign r then (- SFmag r)%Q else SFmag r.

Definition F2Q (f : float) : Q := SF2Q (Prim2SF f).

End Binary64Values.

(** The order of binary64, read on the specification of [<] and [<=]. *)
Definition SFle (x y : spec_float) : Prop := SFleb x y = true.

Ltac sf_compare :=
  unfold SFle, SFleb, SFltb, SFcompare;
  repeat match goal with
         | s : bool |- _ => destruct s
         end;
  change (Pos.compare_cont Eq) with Pos.compare;
  repeat match goal with
         | |- context [Z.compare ?a ?b] => destruct (Z.compare_spec a b)
         | H : context [Z.compare ?a ?b] |- _ => destruct (Z.compare_spec a b)
         | |- context [Pos.compare ?a ?b] => destruct (Pos.compare_spec a b)
         | H : context [Pos.compare ?a ?b] |- _ =>
             destruct (Pos.compare_spec a b)
         end;
  cbn [CompOpp] in *; try reflexivity; try discriminate; try lia.

(** Unfolding the operators of an instance. *)
Ltac int_ops :=
  cbn [num_zero num_one num_add num_sub num_mul num_eqb num_ltb Number_int] in *.

Ltac frac_ops :=
  cbn [num_zero num_one num_add num_sub num_mul num_eqb num_ltb
       Number_Fraction] in *.

(** ** Properties of the numeric instances *)

Lemma Qc_eq_bool_true_iff (x y : Qc) : Qc_eq_bool x y = true <-> x = y.
Proof.
  split; [apply Qc_eq_bool_correct | intros ->].
  unfold Qc_eq_bool. destruct (Qc_eq_dec y y); congruence.
Qed.

Lemma Qc_eq_bool_false_iff (x y : Qc) : Qc_eq_bool x y = false <-> x <> y.
Proof.
  rewrite <- Qc_eq_bool_true_iff. destruct (Qc_eq_bool x y); split; congruence.
Qed.

Lemma Qc_ltb_lt (x y : Qc) : Qc_ltb x y = true <-> (x < y)%Qc.
Proof.
  rewrite Qclt_alt. unfold Qc_ltb.
  destruct (x ?= y)%Qc; split; congruence.
Qed.

Lemma Qc_ltb_ge (x y : Qc) : Qc_ltb x y = false <-> (y <= x)%Qc.
Proof.
  split; intros E.
  - apply Qcnot_lt_le. rewrite <- Qc_ltb_lt. congruence.
  - destruct (Qc_ltb x y) eqn:L; [|reflexivity].
    apply Qc_ltb_lt in L. exfalso. exact (Qcle_not_lt _ _ E L).
Qed.


Lemma this_Qcplus (a b : Qc) : (this (a + b)%Qc == this a + this b)%Q.
Proof. apply Qred_correct. Qed.






(** ** [factorial] *)

Section FactorialAnyNumber.

Context {A : Type} `{Number A}.

(** More fuel never changes an answer. *)
Lemma factorial_fuel_mono (fuel : nat) :
  forall (n : A) (r : outcome A),
    factorial fuel n = Some r ->
    forall fuel', (fuel <= fuel')%nat -> factorial fuel' n = Some r.
Proof.
  induction fuel as [|fuel IH]; intros n r E fuel' L; [discriminate|].
  destruct fuel' as [|fuel']; [lia|].
  simpl in *.
  destruct (num_ltb n num_zero); [exact E|].
  destruct (num_eqb n num_zero || num_eqb n num_one); [exact E|].
  destruct (factorial fuel (num_sub n num_one)) as [r'|] eqn:R; [|discriminate].
  rewrite (IH _ _ R fuel') by lia. exact E.
Qed.

(** Every [ValueError] of [factorial] is the one its [raise] builds, and
    [factorial] raises nothing else. *)
Lemma factorial_raises_only (fuel : nat) :
  forall (n : A) (e : exn),
    factorial fuel n = Some (Raise e) ->
    e = ValueError "Factorial not defined for negative numbers".
Proof.
  induction fuel as [|fuel IH]; intros n e E; [discriminate|].
  simpl in E.
  destruct (num_ltb n num_zero); [congruence|].
  destruct (num_eqb n num_zero || num_eqb n num_one); [discriminate|].
  destruct (factorial fuel (num_sub n num_one)) as [[f|e']|] eqn:R;
    simpl in E; try discriminate.
  injection E as <-. exact (IH _ _ R).
Qed.

End FactorialAnyNumber.

Lemma product_1_to_succ (k : nat) :
  product_1_to (Z.of_nat (S k)) = Z.of_nat (S k) * product_1_to (Z.of_nat k).
Proof.
  unfold product_1_to. rewrite !Nat2Z.id, seq_S, map_app, fold_right_app.
  cbn [map fold_right Nat.add].
  generalize (map Z.of_nat (seq 1 k)) as l.
  induction l as [|x l IH]; cbn [fold_right]; [lia|].
  rewrite IH. ring.
Qed.

Lemma factorial_int_nat (k : nat) :
  forall fuel, (k < fuel)%nat ->
    factorial fuel (Z.of_nat k) = Some (Return (product_1_to (Z.of_nat k))).
Proof.
  induction k as [|k IH]; intros fuel L.
  - destruct fuel; [lia|]. reflexivity.
  - destruct fuel as [|fuel]; [lia|].
    cbn [factorial]. int_ops.
    destruct (Z.ltb_spec (Z.of_nat (S k)) 0) as [?|_]; [lia|].
    destruct (Z.eqb_spec (Z.of_nat (S k)) 0) as [?|_]; [lia|].
    destruct (Z.eqb_spec (Z.of_nat (S k)) 1) as [E1|N1]; cbn [orb].
    + assert (k = 0%nat) as -> by lia. reflexivity.
    + replace (Z.of_nat (S k) - 1) with (Z.of_nat k) by lia.
      rewrite IH by lia. cbn [bind].
      rewrite product_1_to_succ. reflexivity.
Qed.

(** C1.  For every integer [n >= 0], [factorial(n)] returns [n!], the product
    [1 * 2 * ... * n], as soon as the recursion may go [n + 1] calls deep, and
    [factorial(0) = factorial(1) = 1]; for every integer [n < 0] the call
    raises [ValueError] and returns no value. *)
Theorem factorial_int_spec :
  (forall n : Z, 0 <= n ->
     forall fuel, (Z.to_nat n < fuel)%nat ->
       factorial fuel n = Some (Return (product_1_to n)))
  /\ (factorial 1 0 = Some (Return 1) /\ factorial 1 1 = Some (Return 1))
  /\ (forall n : Z, n < 0 ->
        forall fuel,
          factorial (S fuel) n =
          Some (Raise (ValueError "Factorial not defined for negative numbers"))).
Proof.
  split; [|split].
  - intros n Hn fuel L.
    rewrite <- (Z2Nat.id n Hn). apply factorial_int_nat. exact L.
  - split; reflexivity.
  - intros n Hn fuel. cbn [factorial]. int_ops.
    destruct (Z.ltb_spec n 0) as [_|?]; [reflexivity|lia].
Qed.

Lemma factorial_int_spec_witness :
  factorial 6 5 = Some (Return 120)
  /\ factorial 1 (-1) =
     Some (Raise (ValueError "Factorial not defined for negative numbers")).
Proof.
  split.
  - exact (proj1 factorial_int_spec 5 ltac:(lia) 6%nat ltac:(vm_compute; lia)).
  - exact (proj2 (proj2 factorial_int_spec) (-1) ltac:(lia) 0%nat).
Defined.





(** ** [add] *)

Lemma SFadd_comm (x y : spec_float) :
  SFadd prec emax x y = SFadd prec emax y x.
Proof.
  destruct x as [sx|sx| |sx mx ex], y as [sy|sy| |sy my ey];
    try reflexivity;
    try (destruct sx, sy; reflexivity).
  unfold SFadd. rewrite (Z.min_comm ey ex). f_equal. apply Z.add_comm.
Qed.

Lemma float_add_comm (a b : float) : (a + b = b + a)%float.
Proof.
  rewrite <- (SF2Prim_Prim2SF (a + b)), <- (SF2Prim_Prim2SF (b + a)).
  rewrite !add_spec. unfold SF64add. rewrite SFadd_comm. reflexivity.
Qed.

(** C7.  [add(a, b) = add(b, a)] for all numbers [a] and [b]: for [int]s, for
    [Fraction]s and for [float]s. *)
Theorem add_commutative :
  (forall a b : Z, add a b = add b a)
  /\ (forall a b : Qc, add a b = add b a)
  /\ (forall a b : float, add a b = add b a).
Proof.
  split; [|split]; intros a b; unfold add; cbn [num_add].
  - apply Z.add_comm.
  - apply Qcplus_comm.
  - apply float_add_comm.
Qed.

(** ** [divide] *)

Section DivideAnyNumber.

Context {A : Type} `{Number A} `{TrueDiv A}.

Lemma divide_zero (a b : A) :
  num_eqb b num_zero = true ->
  divide a b = Raise (ValueError "Cannot divide by zero").
Proof. intros E. unfold divide. rewrite E. reflexivity. Qed.

Lemma divide_nonzero (a b : A) :
  num_eqb b num_zero = false -> divide a b = truediv a b.
Proof. intros E. unfold divide. rewrite E. reflexivity. Qed.

(** When [/] itself raises no [ValueError], [divide] raises one exactly on
    a zero divisor, and with its own message. *)
Lemma divide_ValueError (a b : A) (msg : string) :
  (forall m, truediv a b <> Raise (ValueError m)) ->
  divide a b = Raise (ValueError msg) ->
  num_eqb b num_zero = true /\ msg = "Cannot divide by zero".
Proof.
  intros T E. unfold divide in E.
  destruct (num_eqb b num_zero).
  - injection E as <-. split; reflexivity.
  - exfalso. exact (T _ E).
Qed.

End DivideAnyNumber.

Lemma int_truediv_no_ValueError (a b : Z) (m : string) :
  int_truediv a b <> Raise (ValueError m).
Proof.
  unfold int_truediv. destruct (b =? 0)%Z; [discriminate|].
  destruct (SFdiv prec emax (int_as_SF a) (int_as_SF b)); discriminate.
Qed.

Lemma Fraction_truediv_no_ValueError (a b : Qc) (m : string) :
  Fraction_truediv a b <> Raise (ValueError m).
Proof.
  unfold Fraction_truediv. destruct (Qc_eq_bool b 0); discriminate.
Qed.

Lemma float_truediv_no_ValueError (a b : float) (m : string) :
  float_truediv a b <> Raise (ValueError m).
Proof.
  unfold float_truediv. destruct (PrimFloat.eqb b 0); discriminate.
Qed.

Lemma divide_Fraction_nonzero (a b : Qc) :
  b <> 0%Qc -> divide a b = Return (a / b)%Qc.
Proof.
  intros N. apply Qc_eq_bool_false_iff in N.
  rewrite divide_nonzero by exact N.
  cbn [truediv TrueDiv_Fraction]. unfold Fraction_truediv.
  rewrite N. reflexivity.
Qed.

Lemma divide_float_nonzero (a b : float) :
  PrimFloat.eqb b 0 = false -> divide a b = Return (a / b)%float.
Proof.
  intros N. rewrite divide_nonzero by exact N.
  cbn [truediv TrueDiv_float]. unfold float_truediv.
  rewrite N. reflexivity.
Qed.

Lemma divide_int_nonzero (a b : Z) :
  b <> 0 ->
  match SFdiv prec emax (int_as_SF a) (int_as_SF b) with
  | S754_infinity _ => divide a b = Raise OverflowError
  | q => divide a b = Return (SF2Prim q)
  end.
Proof.
  intros N. apply Z.eqb_neq in N.
  rewrite divide_nonzero by exact N.
  cbn [truediv TrueDiv_int]. unfold int_truediv. rewrite N.
  destruct (SFdiv prec emax (int_as_SF a) (int_as_SF b)); reflexivity.
Qed.

(** C3, as the code has it.  [divide(a, b)] raises [ValueError] if and only
    if [b == 0].  When [b] is not zero, [Fraction] operands give exactly
    [a / b] and [float] operands the IEEE quotient, and nothing is raised;
    [int] operands give the quotient rounded to a [float], unless it lies
    beyond the range of [float], where [/] raises [OverflowError]. *)
Theorem divide_raises_iff_zero :
  (forall a b : Qc,
     ((exists msg, divide a b = Raise (ValueError msg)) <-> b = 0%Qc)
     /\ (b <> 0%Qc -> divide a b = Return (a / b)%Qc))
  /\ (forall a b : float,
        ((exists msg, divide a b = Raise (ValueError msg))
         <-> PrimFloat.eqb b 0 = true)
        /\ (PrimFloat.eqb b 0 = false -> divide a b = Return (a / b)%float))
  /\ (forall a b : Z,
        ((exists msg, divide a b = Raise (ValueError msg)) <-> b = 0%Z)
        /\ (b <> 0%Z ->
            match SFdiv prec emax (int_as_SF a) (int_as_SF b) with
            | S754_infinity _ => divide a b = Raise OverflowError
            | q => divide a b = Return (SF2Prim q)
            end)).
Proof.
  split; [|split]; intros a b; (split; [split|]).
  - intros [msg E].
    apply divide_ValueError in E; [|apply Fraction_truediv_no_ValueError].
    apply Qc_eq_bool_true_iff, E.
  - intros ->. eexists. apply divide_zero. reflexivity.
  - apply divide_Fraction_nonzero.
  - intros [msg E].
    apply divide_ValueError in E; [|apply float_truediv_no_ValueError].
    apply E.
  - intros E. eexists. apply divide_zero. exact E.
  - apply divide_float_nonzero.
  - intros [msg E].
    apply divide_ValueError in E; [|apply int_truediv_no_ValueError].
    apply Z.eqb_eq, E.
  - intros ->. eexists. apply divide_zero. reflexivity.
  - apply divide_int_nonzero.
Qed.

Lemma divide_raises_iff_zero_witness :
  divide (Q2Qc 7) (Q2Qc 2) = Return (Q2Qc 7 / Q2Qc 2)%Qc
  /\ divide 7%float 2%float = Return (7 / 2)%float
  /\ divide 7%Z 2%Z = Return 3.5%float.
Proof.
  split; [|split].
  - apply (proj2 (proj1 divide_raises_iff_zero (Q2Qc 7) (Q2Qc 2))).
    intros E. apply Q2Qc_eq_iff in E. discriminate E.
  - apply (proj2 (proj1 (proj2 divide_raises_iff_zero) 7%float 2%float)).
    reflexivity.
  - apply (proj2 (proj2 (proj2 divide_raises_iff_zero) 7%Z 2%Z)).
    lia.
Defined.

(** C3 as the specification words it fails on [int]s: [divide(10**400, 1)]
    has a divisor that is not zero and yet raises, and returns no value. *)
Lemma divide_int_overflow :
  1%Z <> 0%Z
  /\ divide (10 ^ 400)%Z 1%Z = Raise OverflowError
  /\ forall q, divide (10 ^ 400)%Z 1%Z <> Return q.
Proof.
  split; [lia|].
  assert (divide (10 ^ 400)%Z 1%Z = Raise OverflowError) as E
    by (vm_compute; reflexivity).
  split; [exact E|]. intros q. rewrite E. discriminate.
Qed.

(** ** Rounding in binary64

    What [SFdiv], [SFmul] and [binary_normalize] return, measured in the
    rationals: the rounded magnitude is within [u64 * x + eta64] of the
    exact magnitude [x]. *)

Section Binary64Rounding.

Local Open Scope Z_scope.

Lemma pow2_pos (e : Z) : (0 < pow2 e)%Q.
Proof. apply Qpower_0_lt. reflexivity. Qed.

Lemma pow2_add (a b : Z) : (pow2 (a + b) == pow2 a * pow2 b)%Q.
Proof. apply Qpower_plus. discriminate. Qed.

Lemma pow2_succ (e : Z) : (pow2 (e + 1) == 2 * pow2 e)%Q.
Proof. rewrite pow2_add. change (pow2 1) with 2%Q. ring. Qed.

Lemma pow2_le (a b : Z) : a <= b -> (pow2 a <= pow2 b)%Q.
Proof. intros L. apply Qpower_le_compat_l; [exact L|]. discriminate. Qed.

Lemma pow2_Z (n : Z) : 0 <= n -> (pow2 n == inject_Z (2 ^ n))%Q.
Proof. intros L. rewrite Zpower_Qpower by exact L. reflexivity. Qed.

Lemma inject_Z_xO (p : positive) :
  (inject_Z (Z.pos p~0) == 2 * inject_Z (Z.pos p))%Q.
Proof. rewrite Pos2Z.inj_xO, inject_Z_mult. reflexivity. Qed.

Lemma inject_Z_xI (p : positive) :
  (inject_Z (Z.pos p~1) == 2 * inject_Z (Z.pos p) + 1)%Q.
Proof. rewrite Pos2Z.inj_xI, inject_Z_plus, inject_Z_mult. reflexivity. Qed.

Lemma inb_bounds (m : Z) (l : location) (y : Q) :
  inb m l y -> (inject_Z m <= y /\ y < inject_Z m + 1)%Q.
Proof. destruct l as [|[| |]]; cbn [inb]; lra. Qed.

Lemma shr_1_inb (mrs : shr_record) (y : Q) :
  0 <= shr_m mrs ->
  inb (shr_m mrs) (loc_of_shr_record mrs) y ->
  0 <= shr_m (shr_1 mrs)
  /\ inb (shr_m (shr_1 mrs)) (loc_of_shr_record (shr_1 mrs)) (y * (1 # 2)).
Proof.
  destruct mrs as [m r s]. cbn [shr_m]. intros P.
  destruct m as [|p|p]; [|destruct p as [p|p|]|lia];
    destruct r, s; cbn [shr_1 orb shr_m loc_of_shr_record inb];
    rewrite ?inject_Z_xO, ?inject_Z_xI;
    change (inject_Z 0) with 0%Q; change (inject_Z 1) with 1%Q;
    (split; [lia|lra]).
Qed.

Lemma inb_ext (m : Z) (l : location) (y y' : Q) :
  (y == y')%Q -> inb m l y -> inb m l y'.
Proof. intros E. destruct l as [|[| |]]; cbn [inb]; rewrite E; trivial. Qed.

Lemma pow2_opp_mul (a : Z) : (pow2 (- a) * pow2 a == 1)%Q.
Proof. rewrite <- pow2_add. replace (- a + a) with 0 by lia. reflexivity. Qed.

Lemma iter_shr_1_inb (p : positive) :
  forall (mrs : shr_record) (y : Q),
    0 <= shr_m mrs ->
    inb (shr_m mrs) (loc_of_shr_record mrs) y ->
    0 <= shr_m (iter_pos shr_1 p mrs)
    /\ inb (shr_m (iter_pos shr_1 p mrs))
           (loc_of_shr_record (iter_pos shr_1 p mrs))
           (y * pow2 (- Z.pos p)).
Proof.
  induction p as [p IH|p IH|]; intros mrs y P I; cbn [iter_pos].
  - destruct (shr_1_inb mrs y P I) as [P1 I1].
    destruct (IH _ _ P1 I1) as [P2 I2].
    destruct (IH _ _ P2 I2) as [P3 I3].
    split; [exact P3|]. revert I3. apply inb_ext.
    rewrite Pos2Z.inj_xI.
    replace (- (2 * Z.pos p + 1)) with (- Z.pos p + (- Z.pos p + -1)) by lia.
    rewrite !pow2_add. change (pow2 (-1)) with (1 # 2)%Q. ring.
  - destruct (IH _ _ P I) as [P2 I2].
    destruct (IH _ _ P2 I2) as [P3 I3].
    split; [exact P3|]. revert I3. apply inb_ext.
    rewrite Pos2Z.inj_xO.
    replace (- (2 * Z.pos p)) with (- Z.pos p + - Z.pos p) by lia.
    rewrite !pow2_add. ring.
  - destruct (shr_1_inb mrs y P I) as [P1 I1].
    split; [exact P1|]. revert I1. apply inb_ext.
    change (pow2 (- 1)) with (1 # 2)%Q. reflexivity.
Qed.

Lemma loc_of_shr_record_of_loc (m : Z) (l : location) :
  loc_of_shr_record (shr_record_of_loc m l) = l
  /\ shr_m (shr_record_of_loc m l) = m.
Proof. destruct l as [|[| |]]; split; reflexivity. Qed.

(** Digits. *)
Lemma digits2_pos_size (p : positive) : digits2_pos p = Pos.size p.
Proof. induction p; cbn; congruence. Qed.

Lemma Zdigits2_bounds (m : Z) :
  0 < m -> 0 < Zdigits2 m /\ 2 ^ (Zdigits2 m - 1) <= m < 2 ^ Zdigits2 m.
Proof.
  destruct m as [|p|p]; try lia. intros _. cbn [Zdigits2].
  rewrite digits2_pos_size. split; [lia|].
  pose proof (Pos.size_gt p) as G. pose proof (Pos.size_le p) as L.
  apply Pos2Z.pos_lt_pos in G. apply Pos2Z.pos_le_pos in L.
  rewrite Pos2Z.inj_pow in G, L.
  split; [|exact G].
  replace (Z.pos (Pos.size p)) with (Z.pos (Pos.size p) - 1 + 1) in L by lia.
  rewrite Z.pow_add_r in L by lia. change (2 ^ 1) with 2 in L. lia.
Qed.

Lemma fexp64_eq (e : Z) : fexp prec emax e = Z.max (e - 53) (-1074).
Proof. reflexivity. Qed.

Lemma Zdigits2_nonneg_bounds (m : Z) :
  0 <= m -> 0 <= Zdigits2 m /\ m + 1 <= 2 ^ Zdigits2 m.
Proof.
  intros P. destruct (Z.eq_dec m 0) as [->|N].
  - cbn. lia.
  - destruct (Zdigits2_bounds m) as (D & _ & U); lia.
Qed.

Lemma inject_Z_pow2 (k : Z) : 0 <= k -> (inject_Z (2 ^ k) == pow2 k)%Q.
Proof. intros P. rewrite pow2_Z by exact P. reflexivity. Qed.

Lemma shr_fexp_spec (m e : Z) (l : location) (x : Q) :
  0 <= m ->
  inb m l (x * pow2 (- e)) ->
  e <= fexp prec emax (Zdigits2 m + e) ->
  let r := shr_fexp prec emax m e l in
  snd r = fexp prec emax (Zdigits2 m + e)
  /\ 0 <= shr_m (fst r) < 2 ^ 53
  /\ inb (shr_m (fst r)) (loc_of_shr_record (fst r)) (x * pow2 (- snd r))
  /\ (snd r = -1074 \/ 2 ^ 52 <= shr_m (fst r)).
Proof.
  intros P I C. unfold shr_fexp, shr.
  destruct (Zdigits2_nonneg_bounds m P) as [D0 DU].
  set (d := Zdigits2 m) in *.
  assert (fexp prec emax (d + e) = Z.max (d + e - 53) (-1074)) as F
      by apply fexp64_eq.
  destruct (fexp prec emax (d + e) - e) as [|p|p] eqn:N; cbn zeta; cbn [fst snd].
  - destruct (loc_of_shr_record_of_loc m l) as [-> ->].
    assert (d <= 53) as D53 by lia.
    assert (m < 2 ^ 53) as M53.
    { pose proof (Z.pow_le_mono_r 2 d 53 ltac:(lia) D53). lia. }
    repeat split; try lia; try exact I.
    destruct (Z.eq_dec e (-1074)) as [E|E]; [left; exact E|right].
    assert (d = 53) as D by lia.
    destruct (Z.eq_dec m 0) as [->|M0]; [cbn in d; lia|].
    destruct (Zdigits2_bounds m ltac:(lia)) as (_ & L & _).
    fold d in L. rewrite D in L. exact L.
  - pose proof (loc_of_shr_record_of_loc m l) as [EL EM].
    destruct (iter_shr_1_inb p (shr_record_of_loc m l) (x * pow2 (- e)))
      as [P' I'].
    { rewrite EM. exact P. }
    { rewrite EL, EM. exact I. }
    set (mrs := iter_pos shr_1 p (shr_record_of_loc m l)) in *.
    assert (inb (shr_m mrs) (loc_of_shr_record mrs)
                (x * pow2 (- (e + Z.pos p)))) as I2.
    { revert I'. apply inb_ext.
      replace (- (e + Z.pos p)) with (- e + - Z.pos p) by lia.
      rewrite pow2_add. ring. }
    pose proof (inb_bounds _ _ _ I) as [YL YU].
    pose proof (inb_bounds _ _ _ I') as [YL' YU'].
    pose proof (pow2_pos (- Z.pos p)) as PP.
    assert (shr_m mrs < 2 ^ 53) as M53.
    { rewrite Zlt_Qlt, inject_Z_pow2 by lia.
      eapply Qle_lt_trans; [exact YL'|].
      apply Qlt_le_trans with (pow2 d * pow2 (- Z.pos p))%Q.
      - apply Qmult_lt_compat_r; [exact PP|].
        eapply Qlt_le_trans; [exact YU|].
        rewrite <- inject_Z_pow2 by lia.
        change 1%Q with (inject_Z 1). rewrite <- inject_Z_plus.
        rewrite <- Zle_Qle. exact DU.
      - rewrite <- pow2_add. apply pow2_le. lia. }
    repeat split; try lia; try exact I2.
    destruct (Z.eq_dec (e + Z.pos p) (-1074)) as [E|E]; [left; exact E|right].
    assert (Z.pos p = d - 53) as DP by lia.
    assert (0 < m) as M0.
    { destruct (Z.eq_dec m 0) as [M0|M0]; [|lia]. subst m. cbn in d. lia. }
    destruct (Zdigits2_bounds m M0) as (_ & L & _). fold d in L.
    assert (pow2 52 <= x * pow2 (- e) * pow2 (- Z.pos p))%Q as LB.
    { apply Qle_trans with (pow2 (d - 1) * pow2 (- Z.pos p))%Q.
      - rewrite <- pow2_add. apply pow2_le. lia.
      - apply Qmult_le_compat_r; [|apply Qlt_le_weak, PP].
        eapply Qle_trans; [|exact YL].
        rewrite <- inject_Z_pow2 by lia. rewrite <- Zle_Qle. exact L. }
    assert (inject_Z (2 ^ 52 - 1) < inject_Z (shr_m mrs))%Q as LT.
    { unfold Z.sub. rewrite inject_Z_plus, inject_Z_pow2 by lia.
      change (inject_Z (- (1))) with (- (1))%Q. lra. }
    rewrite <- Zlt_Qlt in LT. lia.
  - lia.
Qed.

Lemma round_nearest_even_spec (m : Z) (l : location) (y : Q) :
  0 <= m ->
  inb m l y ->
  m <= round_nearest_even m l <= m + 1
  /\ (- (1 # 2) <= inject_Z (round_nearest_even m l) - y <= 1 # 2)%Q.
Proof.
  intros P I.
  destruct l as [|[| |]]; cbn [round_nearest_even inb] in *;
    try destruct (Z.even m);
    rewrite ?inject_Z_plus; change (inject_Z 1) with 1%Q;
    (split; [lia|lra]).
Qed.

Lemma Zdigits2_le (m k : Z) : 0 <= m < 2 ^ k -> 0 <= k -> Zdigits2 m <= k.
Proof.
  intros [P U] K. destruct (Z.eq_dec m 0) as [->|N]; [cbn; lia|].
  destruct (Zdigits2_bounds m ltac:(lia)) as (D & L & _).
  assert (2 ^ (Zdigits2 m - 1) < 2 ^ k) as LT by lia.
  apply Z.pow_lt_mono_r_iff in LT; lia.
Qed.

Lemma Zdigits2_ge (q k : Z) : 0 <= k -> 2 ^ k <= q -> k + 1 <= Zdigits2 q.
Proof.
  intros K L.
  assert (0 < 2 ^ k) by (apply Z.pow_pos_nonneg; lia).
  destruct (Zdigits2_bounds q ltac:(lia)) as (D & _ & U).
  assert (2 ^ k < 2 ^ Zdigits2 q) as LT by lia.
  apply Z.pow_lt_mono_r_iff in LT; lia.
Qed.

(** The second normalisation of [binary_round_aux] keeps the value: it does
    nothing, or halves the mantissa [2^53] that a rounding up produced. *)
Lemma shr_fexp_exact (mr e' : Z) :
  0 <= mr <= 2 ^ 53 ->
  -1074 <= e' ->
  let r := shr_fexp prec emax mr e' loc_Exact in
  (mr < 2 ^ 53 /\ shr_m (fst r) = mr /\ snd r = e')
  \/ (mr = 2 ^ 53 /\ shr_m (fst r) = 2 ^ 52 /\ snd r = e' + 1).
Proof.
  intros [P U] E. destruct (Z.eq_dec mr (2 ^ 53)) as [->|N].
  - right. unfold shr_fexp. change (Zdigits2 (2 ^ 53)) with 54.
    replace (fexp prec emax (54 + e') - e') with 1 by (rewrite fexp64_eq; lia).
    repeat split.
  - left. unfold shr_fexp, shr.
    pose proof (Zdigits2_le mr 53 ltac:(lia) ltac:(lia)) as D.
    pose proof (fexp64_eq (Zdigits2 mr + e')) as F.
    destruct (fexp prec emax (Zdigits2 mr + e') - e') as [|p|p] eqn:N2;
      cbn [fst snd shr_record_of_loc shr_m]; lia.
Qed.

Lemma binary_round_aux_spec (sx : bool) (m e : Z) (l : location) (x : Q) :
  0 <= m ->
  inb m l (x * pow2 (- e)) ->
  e <= fexp prec emax (Zdigits2 m + e) ->
  rounds (binary_round_aux prec emax sx m e l) sx x
  /\ valid_binary (binary_round_aux prec emax sx m e l) = true.
Proof.
  intros P I C. unfold binary_round_aux.
  pose proof (shr_fexp_spec m e l x P I C) as S1. cbn zeta in S1.
  destruct (shr_fexp prec emax m e l) as [mrs1 e1]. cbn [fst snd] in S1.
  destruct S1 as (E1 & [P1 U1] & I1 & N1).
  assert (-1074 <= e1) as EM by (rewrite E1, fexp64_eq; lia).
  destruct (round_nearest_even_spec _ _ _ P1 I1) as [[RL RU] RE].
  set (mr := round_nearest_even (shr_m mrs1) (loc_of_shr_record mrs1)) in *.
  pose proof (shr_fexp_exact mr e1 ltac:(lia) EM) as S2. cbn zeta in S2.
  destruct (shr_fexp prec emax mr e1 loc_Exact) as [mrs2 e2].
  cbn [fst snd] in S2.
  assert (0 <= shr_m mrs2
          /\ (inject_Z (shr_m mrs2) * pow2 e2 == inject_Z mr * pow2 e1)%Q
          /\ (0 < shr_m mrs2 -> fexp prec emax (Zdigits2 (shr_m mrs2) + e2) = e2))
    as (P2 & V2 & K2).
  { destruct S2 as [(L & -> & ->)|(-> & -> & ->)].
    - split; [lia|]. split; [reflexivity|]. intros MP.
      pose proof (Zdigits2_le mr 53 ltac:(lia) ltac:(lia)) as D.
      rewrite fexp64_eq. destruct N1 as [N1|N1]; [lia|].
      pose proof (Zdigits2_ge mr 52 ltac:(lia) ltac:(lia)). lia.
    - split; [lia|]. split.
      + rewrite pow2_succ. change (2 ^ 53) with (2 * 2 ^ 52).
        rewrite inject_Z_mult. change (inject_Z 2) with 2%Q. ring.
      + intros _. change (Zdigits2 (2 ^ 52)) with 53.
        rewrite fexp64_eq. lia. }
  clear S2.
  pose proof (pow2_pos e1) as T1.
  pose proof (pow2_opp_mul e1) as TT.
  pose proof (inb_bounds _ _ _ I1) as [YL YU].
  assert (x == x * pow2 (- e1) * pow2 e1)%Q as XE.
  { rewrite <- Qmult_assoc, TT. ring. }
  set (y := (x * pow2 (- e1))%Q) in *.
  assert (- ((1 # 2) * pow2 e1) <= inject_Z mr * pow2 e1 - x
          <= (1 # 2) * pow2 e1)%Q as ERR.
  { rewrite XE. nra. }
  assert ((1 # 2) * pow2 e1 <= u64 * x + eta64)%Q as TOL.
  { assert (0 <= x)%Q as X0.
    { rewrite XE. apply Qmult_le_0_compat; [|lra].
      eapply Qle_trans; [|exact YL]. change 0%Q with (inject_Z 0).
      rewrite <- Zle_Qle. exact P1. }
    assert (0 < u64)%Q as U0 by apply pow2_pos.
    assert (0 < eta64)%Q as H0 by apply pow2_pos.
    destruct N1 as [N1|N1].
    - rewrite N1.
      assert ((1 # 2) * pow2 (-1074) == eta64)%Q as ->.
      { unfold eta64. replace (-1074) with (-1075 + 1) by lia.
        rewrite pow2_succ. ring. }
      nra.
    - assert (pow2 52 <= y)%Q as Y52.
      { eapply Qle_trans; [|exact YL].
        rewrite <- inject_Z_pow2 by lia. rewrite <- Zle_Qle. exact N1. }
      assert (u64 * pow2 52 == 1 # 2)%Q as UH.
      { unfold u64. rewrite <- pow2_add. reflexivity. }
      assert (1 # 2 <= u64 * y)%Q as K by nra.
      assert (u64 * x == (u64 * y) * pow2 e1)%Q as UX
          by (rewrite XE at 1; ring).
      assert ((1 # 2) * pow2 e1 <= u64 * x)%Q; [|lra].
      rewrite UX. generalize dependent (u64 * y)%Q. intros k; intros. nra. }
  destruct (shr_m mrs2) as [|p|p] eqn:M2.
  - split; [|reflexivity].
    split; [discriminate|]. split; [reflexivity|]. intros _. cbn [SFmag].
    assert (inject_Z mr * pow2 e1 == 0)%Q as Z0.
    { rewrite <- V2. change (inject_Z 0) with 0%Q. ring. }
    rewrite Z0 in ERR. lra.
  - destruct (e2 <=? emax - prec) eqn:EB; (split; [|]);
      try reflexivity;
      try (split; [discriminate|]; split; [reflexivity|];
           intros O; try discriminate O).
    + cbn [SFmag]. rewrite V2. lra.
    + cbn [SpecFloat.valid_binary]. unfold bounded, canonical_mantissa.
      rewrite EB, andb_true_r. apply Z.eqb_eq.
      apply (K2 ltac:(lia)).
  - lia.
Qed.

Lemma rounds_ext (r : spec_float) (sx : bool) (x x' : Q) :
  (x == x')%Q -> rounds r sx x -> rounds r sx x'.
Proof.
  intros E (N & S & B). split; [exact N|]. split; [exact S|].
  intros O. rewrite <- E. exact (B O).
Qed.

(** A mantissa that already fits is kept as it is. *)
Lemma binary_round_aux_exact (sx : bool) (p : positive) (e : Z) :
  fexp prec emax (Zdigits2 (Z.pos p) + e) < e ->
  rounds (binary_round_aux prec emax sx (Z.pos p) e loc_Exact) sx
         (inject_Z (Z.pos p) * pow2 e).
Proof.
  intros C. unfold binary_round_aux, shr_fexp, shr.
  destruct (fexp prec emax (Zdigits2 (Z.pos p) + e) - e) as [|n|n] eqn:N; try lia.
  cbn [shr_record_of_loc shr_m loc_of_shr_record round_nearest_even].
  rewrite N. cbn [shr_record_of_loc shr_m].
  pose proof (pow2_pos e) as T. pose proof (pow2_pos (-53)) as U.
  pose proof (pow2_pos (-1075)) as H.
  assert (0 < inject_Z (Z.pos p))%Q as PP.
  { change 0%Q with (inject_Z 0). rewrite <- Zlt_Qlt. lia. }
  destruct (e <=? emax - prec);
    (split; [discriminate|]); (split; [reflexivity|]);
    intros O; [|discriminate O].
  cbn [SFmag]. unfold u64, eta64.
  assert (0 < inject_Z (Z.pos p) * pow2 e)%Q by nra.
  generalize dependent (inject_Z (Z.pos p) * pow2 e)%Q. intros x; intros.
  nra.
Qed.

Lemma binary_round_aux_mantissa (sx : bool) (p : positive) (e : Z) :
  rounds (binary_round_aux prec emax sx (Z.pos p) e loc_Exact) sx
         (inject_Z (Z.pos p) * pow2 e).
Proof.
  destruct (Z_lt_le_dec (fexp prec emax (Zdigits2 (Z.pos p) + e)) e) as [C|C].
  - apply binary_round_aux_exact, C.
  - apply binary_round_aux_spec; [lia| |exact C].
    cbn [inb]. rewrite <- Qmult_assoc, (Qmult_comm (pow2 e)), pow2_opp_mul.
    ring.
Qed.

Lemma SFmul_rounds (sa sb : bool) (ma mb : positive) (ea eb : Z) :
  rounds (SFmul prec emax (S754_finite sa ma ea) (S754_finite sb mb eb))
         (xorb sa sb)
         (SFmag (S754_finite sa ma ea) * SFmag (S754_finite sb mb eb)).
Proof.
  cbn [SFmul SFmag].
  eapply rounds_ext; [|apply binary_round_aux_mantissa].
  rewrite pow2_add, Pos2Z.inj_mul, inject_Z_mult. ring.
Qed.

Lemma frac_place (y K M R : Q) :
  (0 < M -> y * M == K * M + R ->
   (R == 0 -> y == K)
   /\ (0 < R -> 2 * R < M -> K < y /\ y < K + (1 # 2))
   /\ (2 * R == M -> y == K + (1 # 2))
   /\ (M < 2 * R -> R < M -> K + (1 # 2) < y /\ y < K + 1))%Q.
Proof.
  intros MP Y.
  assert (y == K + R / M)%Q as ->.
  { field_simplify_eq; [|lra]. rewrite Y. ring. }
  assert (0 < / M)%Q as IP by (apply Qinv_lt_0_compat; exact MP).
  assert (M * / M == 1)%Q as MI by (apply Qmult_inv_r; lra).
  unfold Qdiv. set (i := (/ M)%Q) in *. clearbody i.
  repeat split; intros; nra.
Qed.

(** The place of a remainder [r] of a division by [m2]. *)
Lemma new_location_inb (m2 q r : Z) (y : Q) :
  0 <= r < m2 ->
  (y * inject_Z m2 == inject_Z q * inject_Z m2 + inject_Z r)%Q ->
  inb q (new_location m2 r) y.
Proof.
  intros [R0 RM] Y.
  assert (0 < inject_Z m2)%Q as MP.
  { change 0%Q with (inject_Z 0). rewrite <- Zlt_Qlt. lia. }
  destruct (frac_place _ _ _ _ MP Y) as (FE & FL & FH & FG).
  assert (forall a b : Z, a < b -> (inject_Z a < inject_Z b)%Q) as LT
      by (intros a b; rewrite <- Zlt_Qlt; trivial).
  assert (forall a b : Z, a = b -> (inject_Z a == inject_Z b)%Q) as EQ
      by (intros a b ->; reflexivity).
  assert (inject_Z (2 * r) == 2 * inject_Z r)%Q as R2
      by (rewrite inject_Z_mult; reflexivity).
  assert (inject_Z (2 * r + 1) == 2 * inject_Z r + 1)%Q as R21
      by (rewrite inject_Z_plus, inject_Z_mult; reflexivity).
  unfold new_location.
  destruct (Z.even m2) eqn:EV;
    unfold new_location_even, new_location_odd;
    destruct (Z.eqb_spec r 0) as [Z0|Z0];
    try (cbn [inb]; apply FE, (EQ r 0), Z0);
    assert (0 < inject_Z r)%Q as RP by (apply (LT 0 r); lia).
  - destruct (Z.compare_spec (2 * r) m2) as [C|C|C]; cbn [inb].
    + apply FH. rewrite <- R2. apply EQ, C.
    + apply FL; [exact RP|]. rewrite <- R2. apply LT, C.
    + apply FG; [rewrite <- R2|]; apply LT; [exact C|exact RM].
  - assert (exists k, m2 = 2 * k + 1) as [k MK].
    { apply Z.odd_spec. rewrite <- Z.negb_even, EV. reflexivity. }
    destruct (Z.compare_spec (2 * r + 1) m2) as [C|C|C]; cbn [inb].
    + apply FL; [exact RP|]. rewrite <- R2. apply LT. lia.
    + apply FL; [exact RP|]. rewrite <- R2. apply LT. lia.
    + apply FG; [rewrite <- R2|]; apply LT; lia.
Qed.

Lemma scaled_quotient (P1 P2 T1 T2 T' Ti S : Q) :
  (0 < P2 -> 0 < T2 -> T1 == S * T2 * T' -> Ti * T' == 1 ->
   P1 * T1 / (P2 * T2) * Ti * P2 == P1 * S)%Q.
Proof.
  intros HP HT E I.
  rewrite E. field_simplify_eq; [|split; lra].
  setoid_replace (P1 * S * T' * Ti)%Q with (P1 * S * (Ti * T'))%Q by ring.
  rewrite I. ring.
Qed.

Lemma SFdiv_core_binary_spec (p1 p2 : positive) (e1 e2 : Z) :
  let r := SFdiv_core_binary prec emax (Z.pos p1) e1 (Z.pos p2) e2 in
  let q := fst (fst r) in
  let e' := snd (fst r) in
  0 <= q
  /\ inb q (snd r)
         (inject_Z (Z.pos p1) * pow2 e1 / (inject_Z (Z.pos p2) * pow2 e2)
          * pow2 (- e'))
  /\ e' <= fexp prec emax (Zdigits2 q + e').
Proof.
  unfold SFdiv_core_binary.
  destruct (Zdigits2_bounds (Z.pos p1) ltac:(lia)) as (D1 & L1 & U1).
  destruct (Zdigits2_bounds (Z.pos p2) ltac:(lia)) as (D2 & L2 & U2).
  set (d1 := Zdigits2 (Z.pos p1)) in *. set (d2 := Zdigits2 (Z.pos p2)) in *.
  set (e' := Z.min (fexp prec emax (d1 + e1 - (d2 + e2))) (e1 - e2)).
  set (s := e1 - e2 - e').
  assert (0 <= s) as S0 by (unfold s, e'; lia).
  set (m' := match s with
             | 0 => Z.pos p1
             | Z.pos _ => Z.shiftl (Z.pos p1) s
             | Z.neg _ => 0
             end).
  assert (m' = Z.pos p1 * 2 ^ s) as M'.
  { unfold m'. destruct s as [|n|n] eqn:SE; [lia| |lia].
    apply Z.shiftl_mul_pow2. lia. }
  clearbody m'.
  pose proof (Z_div_mod m' (Z.pos p2) ltac:(lia)) as DM.
  destruct (Z.div_eucl m' (Z.pos p2)) as [q r]. destruct DM as [DE [R0 RM]].
  cbn zeta. cbn [fst snd].
  assert (0 < 2 ^ s) as PS by (apply Z.pow_pos_nonneg; lia).
  assert (0 <= q) as Q0 by nia.
  split; [exact Q0|]. split.
  - apply new_location_inb; [lia|].
    rewrite <- inject_Z_mult, <- inject_Z_plus.
    rewrite (Z.mul_comm q), <- DE, M', inject_Z_mult, inject_Z_pow2 by lia.
    apply (scaled_quotient _ _ _ _ (pow2 e')).
    + change 0%Q with (inject_Z 0). rewrite <- Zlt_Qlt. lia.
    + apply pow2_pos.
    + rewrite <- !pow2_add. replace (s + e2 + e') with e1 by (unfold s; lia).
      reflexivity.
    + apply pow2_opp_mul.
  - assert (d1 + e1 - (d2 + e2) <= Zdigits2 q + e') as DQ.
    { destruct (Z_le_gt_dec (d1 - d2 + s) 0) as [NP|PP].
      - destruct (Z.eq_dec q 0) as [->|QN];
          [change (Zdigits2 0) with 0; unfold s in *; lia|].
        destruct (Zdigits2_bounds q ltac:(lia)) as (DQ & _ & _).
        unfold s in *. lia.
      - assert (2 ^ (d1 - d2 + s - 1) <= q) as QL.
        { assert (2 ^ (d1 - 1 + s) < 2 ^ d2 * (q + 1)) as LT.
          { rewrite Z.pow_add_r by lia. nia. }
          replace (d1 - 1 + s) with (d2 + (d1 - d2 + s - 1)) in LT by lia.
          rewrite Z.pow_add_r in LT by lia.
          assert (0 < 2 ^ d2) by (apply Z.pow_pos_nonneg; lia).
          assert (2 ^ (d1 - d2 + s - 1) < q + 1) by nia. lia. }
        pose proof (Zdigits2_ge q (d1 - d2 + s - 1) ltac:(lia) QL).
        unfold s in *. lia. }
    rewrite fexp64_eq.
    assert (e' <= fexp prec emax (d1 + e1 - (d2 + e2))) as EL by (unfold e'; lia).
    rewrite fexp64_eq in EL. lia.
Qed.

Lemma SFdiv_rounds (sa sb : bool) (ma mb : positive) (ea eb : Z) :
  rounds (SFdiv prec emax (S754_finite sa ma ea) (S754_finite sb mb eb))
         (xorb sa sb)
         (SFmag (S754_finite sa ma ea) / SFmag (S754_finite sb mb eb)).
Proof.
  cbn [SFdiv SFmag].
  pose proof (SFdiv_core_binary_spec ma mb ea eb) as S. cbn zeta in S.
  destruct (SFdiv_core_binary prec emax (Z.pos ma) ea (Z.pos mb) eb)
    as [[q e'] l].
  cbn [fst snd] in S. destruct S as (Q0 & I & C).
  apply binary_round_aux_spec; assumption.
Qed.

Lemma SFdiv_valid (sa sb : bool) (ma mb : positive) (ea eb : Z) :
  valid_binary
    (SFdiv prec emax (S754_finite sa ma ea) (S754_finite sb mb eb)) = true.
Proof.
  cbn [SFdiv].
  pose proof (SFdiv_core_binary_spec ma mb ea eb) as S. cbn zeta in S.
  destruct (SFdiv_core_binary prec emax (Z.pos ma) ea (Z.pos mb) eb)
    as [[q e'] l].
  cbn [fst snd] in S. destruct S as (Q0 & I & C).
  eapply binary_round_aux_spec; eassumption.
Qed.

Lemma round_trip_bound (u h A B X Qm P : Q) :
  (0 < u -> u <= 1 # 2 -> 0 < h ->
   0 <= A -> 0 < B -> X * B == A -> 0 <= Qm ->
   - (u * X + h) <= Qm - X <= u * X + h ->
   - (u * (Qm * B) + h) <= P - Qm * B <= u * (Qm * B) + h ->
   - (3 * u * A + 2 * h * B + h) <= P - A <= 3 * u * A + 2 * h * B + h)%Q.
Proof.
  intros U0 U1 H0 A0 B0 XB Q0 [H1l H1u] [H2l H2u].
  assert (0 <= X)%Q as X0.
  { destruct (Qlt_le_dec X 0) as [N|N]; [|exact N]. exfalso. nra. }
  assert (- (u * A + h * B) <= Qm * B - A <= u * A + h * B)%Q as [E1l E1u].
  { rewrite <- XB. split; nra. }
  assert (Qm * B <= A + u * A + h * B)%Q as QB by lra.
  assert (0 <= Qm * B)%Q as QB0 by nra.
  assert (u * (Qm * B) <= u * A + u * A * u + h * B * u)%Q as UQ by nra.
  assert (forall k, 0 <= k -> k * u <= k)%Q as KU by (intros k K; nra).
  assert (0 <= u * A)%Q as UA by nra.
  assert (0 <= h * B)%Q as HB by nra.
  pose proof (KU _ UA). pose proof (KU _ HB).
  split; lra.
Qed.

Lemma SFmag_nonneg (r : spec_float) : (0 <= SFmag r)%Q.
Proof.
  destruct r as [s|s| |s m e]; cbn [SFmag]; try lra.
  pose proof (pow2_pos e).
  assert (0 < inject_Z (Z.pos m))%Q.
  { change 0%Q with (inject_Z 0). rewrite <- Zlt_Qlt. lia. }
  nra.
Qed.

Lemma Qabs_SF2Q (r : spec_float) : (Qabs (SF2Q r) == SFmag r)%Q.
Proof.
  pose proof (SFmag_nonneg r). unfold SF2Q.
  destruct (SFsign r); [rewrite Qabs_opp|]; apply Qabs_pos; assumption.
Qed.

Lemma u64_bounds : (0 < u64 /\ u64 <= 1 # 2)%Q.
Proof.
  split; [apply pow2_pos|]. change (1 # 2)%Q with (pow2 (-1)).
  apply pow2_le. lia.
Qed.

Lemma eta64_pos : (0 < eta64)%Q.
Proof. apply pow2_pos. Qed.

(** The round trip on binary64 data: divide, then multiply back. *)
Lemma SF_round_trip (a : spec_float) (sb : bool) (mb : positive) (eb : Z) :
  let b := S754_finite sb mb eb in
  let q := SFdiv prec emax a b in
  let p := SFmul prec emax q b in
  SFoverflow a = false ->
  SFoverflow q = false ->
  SFoverflow p = false ->
  (Qabs (SF2Q p - SF2Q a)
   <= 3 * u64 * Qabs (SF2Q a) + 2 * eta64 * Qabs (SF2Q b) + eta64)%Q.
Proof.
  cbn zeta. intros OA OQ OP.
  rewrite !Qabs_SF2Q.
  pose proof u64_bounds as [U0 U1]. pose proof eta64_pos as H0.
  set (b := S754_finite sb mb eb) in *.
  assert (0 < SFmag b)%Q as B0.
  { cbn [b SFmag]. pose proof (pow2_pos eb).
    assert (0 < inject_Z (Z.pos mb))%Q.
    { change 0%Q with (inject_Z 0). rewrite <- Zlt_Qlt. lia. }
    nra. }
  pose proof (SFmag_nonneg a) as A0.
  assert (SFsign (SFmul prec emax (SFdiv prec emax a b) b) = SFsign a
          /\ (- (3 * u64 * SFmag a + 2 * eta64 * SFmag b + eta64)
              <= SFmag (SFmul prec emax (SFdiv prec emax a b) b) - SFmag a
              <= 3 * u64 * SFmag a + 2 * eta64 * SFmag b + eta64)%Q)
    as [SG BD].
  { destruct a as [sa|sa| |sa ma ea]; try discriminate OA.
    - cbn [b SFdiv SFmul SFsign SFmag]. split.
      + destruct sa, sb; reflexivity.
      + cbn [b SFmag] in B0. nra.
    - pose proof (SFdiv_rounds sa sb ma mb ea eb) as (NQ & SQ & BQ).
      fold b in NQ, SQ, BQ, OQ, OP |- *.
      specialize (BQ OQ).
      destruct (SFdiv prec emax (S754_finite sa ma ea) b)
        as [sq|sq| |sq mq eq] eqn:EQ; try discriminate OQ; try congruence.
      + cbn [b SFmul SFsign] in *. split.
        * subst sq. destruct sa, sb; reflexivity.
        * apply (round_trip_bound u64 eta64 _ (SFmag b)
                   (SFmag (S754_finite sa ma ea) / SFmag b) 0);
            try assumption; try lra.
          -- rewrite Qmult_comm. apply Qmult_div_r. lra.
          -- cbn [SFmag]. lra.
      + pose proof (SFmul_rounds sq sb mq mb eq eb) as (NP & SP & BP).
        fold b in NP, SP, BP, OP.
        specialize (BP OP). split.
        * rewrite SP. cbn [SFsign] in SQ |- *. subst sq.
          destruct sa, sb; reflexivity.
        * apply (round_trip_bound u64 eta64 _ (SFmag b)
                   (SFmag (S754_finite sa ma ea) / SFmag b)
                   (SFmag (S754_finite sq mq eq)));
            try assumption.
          -- rewrite Qmult_comm. apply Qmult_div_r. lra.
          -- apply SFmag_nonneg. }
  apply Qabs_Qle_condition. unfold SF2Q. rewrite SG.
  destruct (SFsign a); lra.
Qed.

Lemma SFeqb_refl (s : spec_float) : s <> S754_nan -> SFeqb s s = true.
Proof.
  destruct s as [sx|sx| |sx mx ex]; intros N; try congruence;
    unfold SFeqb, SFcompare; try (destruct sx; reflexivity).
  change (Pos.compare_cont Eq) with Pos.compare.
  rewrite Z.compare_refl, Pos.compare_refl. destruct sx; reflexivity.
Qed.

Lemma is_finite_SF (x : float) :
  is_finite x = true <-> SFoverflow (Prim2SF x) = false.
Proof.
  unfold is_finite, is_nan, is_infinity.
  rewrite !eqb_spec, abs_spec.
  change (Prim2SF infinity) with (S754_infinity false).
  destruct (Prim2SF x) as [s|s| |s m e] eqn:E.
  - rewrite SFeqb_refl by discriminate. cbn. split; reflexivity.
  - rewrite SFeqb_refl by discriminate. cbn. split; discriminate.
  - cbn. split; discriminate.
  - rewrite SFeqb_refl by discriminate. cbn. split; reflexivity.
Qed.

Lemma float_nonzero_SF (b : float) :
  is_finite b = true ->
  PrimFloat.eqb b 0 = false ->
  exists sb mb eb, Prim2SF b = S754_finite sb mb eb.
Proof.
  intros F Z. apply is_finite_SF in F. rewrite eqb_spec in Z.
  change (Prim2SF 0) with (S754_zero false) in Z.
  destruct (Prim2SF b) as [s|s| |s m e]; try discriminate.
  eauto.
Qed.

Lemma iter_xO_spec (d m : positive) :
  Z.pos (Pos.iter xO m d) = Z.pos m * 2 ^ Z.pos d
  /\ Zdigits2 (Z.pos (Pos.iter xO m d)) = Zdigits2 (Z.pos m) + Z.pos d.
Proof.
  induction d as [|d IH] using Pos.peano_ind.
  - cbn [Pos.iter Zdigits2 digits2_pos]. split; lia.
  - rewrite Pos.iter_succ. destruct IH as [V D].
    rewrite Pos2Z.inj_succ, Z.pow_succ_r by lia.
    cbn [Zdigits2 digits2_pos] in *. split; lia.
Qed.

Lemma shl_align_spec (mx : positive) (ex : Z) :
  let r := shl_align mx ex (fexp prec emax (Zdigits2 (Z.pos mx) + ex)) in
  (inject_Z (Z.pos (fst r)) * pow2 (snd r) == inject_Z (Z.pos mx) * pow2 ex)%Q
  /\ snd r <= fexp prec emax (Zdigits2 (Z.pos (fst r)) + snd r).
Proof.
  unfold shl_align.
  destruct (fexp prec emax (Zdigits2 (Z.pos mx) + ex) - ex) as [|d|d] eqn:N;
    cbn zeta; cbn [fst snd].
  - split; [reflexivity|lia].
  - split; [reflexivity|lia].
  - destruct (iter_xO_spec d mx) as [V D].
    change (PosDef.Pos.iter xO mx d) with (Pos.iter xO mx d).
    rewrite D, V. split.
    + rewrite inject_Z_mult, inject_Z_pow2 by lia.
      assert (pow2 ex == pow2 (Z.pos d)
                         * pow2 (fexp prec emax (Zdigits2 (Z.pos mx) + ex)))%Q as ->.
      { rewrite <- pow2_add. replace ex with
          (Z.pos d + fexp prec emax (Zdigits2 (Z.pos mx) + ex)) at 1 by lia.
        reflexivity. }
      ring.
    + replace (Zdigits2 (Z.pos mx) + Z.pos d
               + fexp prec emax (Zdigits2 (Z.pos mx) + ex))
        with (Zdigits2 (Z.pos mx) + ex) by lia.
      lia.
Qed.

Lemma binary_round_spec (sx : bool) (mx : positive) (ex : Z) :
  rounds (binary_round prec emax sx mx ex) sx (inject_Z (Z.pos mx) * pow2 ex)
  /\ valid_binary (binary_round prec emax sx mx ex) = true.
Proof.
  unfold binary_round.
  pose proof (shl_align_spec mx ex) as S. cbn zeta in S.
  change (Z.pos (digits2_pos mx)) with (Zdigits2 (Z.pos mx)).
  destruct (shl_align mx ex (fexp prec emax (Zdigits2 (Z.pos mx) + ex))) as [mz ez].
  cbn [fst snd] in S. destruct S as [V C].
  apply binary_round_aux_spec; [lia| |exact C].
  cbn [inb]. rewrite <- V, <- Qmult_assoc, (Qmult_comm (pow2 ez)),
    pow2_opp_mul. ring.
Qed.

Lemma round_trip_bound_int (u h A B X Qm Bf P : Q) :
  (0 < u -> u <= 1 # 16 -> 0 < h -> h <= u * u ->
   0 <= A -> 1 <= B -> X * B == A -> 0 <= Qm -> 0 <= Bf ->
   - (u * X + h) <= Qm - X <= u * X + h ->
   - (u * B + h) <= Bf - B <= u * B + h ->
   - (u * (Qm * Bf) + h) <= P - Qm * Bf <= u * (Qm * Bf) + h ->
   - (4 * u * A + 2 * h * B + 2 * h) <= P - A
     <= 4 * u * A + 2 * h * B + 2 * h)%Q.
Proof.
  intros U0 U1 H0 H1 A0 B0 XB Q0 F0 [H1l H1u] [Hbl Hbu] [H2l H2u].
  assert (0 <= X)%Q as X0.
  { destruct (Qlt_le_dec X 0) as [N|N]; [|exact N]. exfalso. nra. }
  assert (X <= A)%Q as XA by (rewrite <- XB; nra).
  assert (- (u * A + h * B) <= Qm * B - A <= u * A + h * B)%Q as [E1l E1u].
  { rewrite <- XB. split; nra. }
  assert (Qm <= A + u * A + h)%Q as QA by nra.
  assert (- (u * (Qm * B) + h * Qm) <= Qm * Bf - Qm * B
          <= u * (Qm * B) + h * Qm)%Q as [E2l E2u] by (split; nra).
  assert (0 <= Qm * B)%Q as QB0 by nra.
  assert (0 <= Qm * Bf)%Q as QF0 by nra.
  assert (h <= 1 # 256)%Q as H2 by nra.
  assert (0 <= u * A)%Q as UA by nra.
  assert (0 <= h * B)%Q as HB by nra.
  assert (0 <= h * A)%Q as HA by nra.
  assert (h * A <= u * (u * A))%Q as HA2 by nra.
  assert (forall k, 0 <= k -> u * k <= (1 # 16) * k)%Q as KU
    by (intros k K; nra).
  assert (forall k, 0 <= k -> h * k <= (1 # 256) * k)%Q as KH
    by (intros k K; nra).
  assert (u * (Qm * B) <= u * A + u * (u * A) + u * (h * B))%Q as UQB by nra.
  assert (h * Qm <= h * A + u * (h * A) + h * h)%Q as HQ by nra.
  assert (u * (Qm * Bf)
          <= u * (Qm * B) + u * (u * (Qm * B)) + u * (h * Qm))%Q as UQF by nra.
  pose proof (KU _ UA) as K1. pose proof (KU _ HB) as K2.
  pose proof (KU _ HA) as K3. pose proof (KH _ (Qlt_le_weak _ _ H0)) as K4.
  assert (0 <= u * (u * A))%Q as UUA
    by (apply Qmult_le_0_compat; [lra|exact UA]).
  pose proof (KU _ UUA) as K5.
  assert (0 <= u * (h * B))%Q as UHB
    by (apply Qmult_le_0_compat; [lra|exact HB]).
  pose proof (KU _ UHB) as K6.
  assert (0 <= u * (Qm * B))%Q as UQB0
    by (apply Qmult_le_0_compat; [lra|exact QB0]).
  pose proof (KU _ UQB0) as K7.
  assert (0 <= h * Qm)%Q as HQ0
    by (apply Qmult_le_0_compat; [lra|exact Q0]).
  pose proof (KU _ HQ0) as K8.
  split; lra.
Qed.

Lemma pow2_0 : (pow2 0 == 1)%Q.
Proof. reflexivity. Qed.

Lemma Qabs_inject_Z (z : Z) : Qabs (inject_Z z) = inject_Z (Z.abs z).
Proof. reflexivity. Qed.

Lemma inject_Z_abs_sign (z : Z) :
  (inject_Z z == if z <? 0 then - inject_Z (Z.abs z) else inject_Z (Z.abs z))%Q.
Proof.
  destruct z as [|p|p]; reflexivity.
Qed.

Lemma binary_normalize_spec (z : Z) :
  rounds (binary_normalize prec emax z 0 false) (z <? 0)
         (inject_Z (Z.abs z))
  /\ valid_binary (binary_normalize prec emax z 0 false) = true.
Proof.
  pose proof eta64_pos as H0. pose proof u64_bounds as [U0 U1].
  destruct z as [|p|p]; cbn [binary_normalize Z.abs Z.ltb Z.compare].
  - split; [|reflexivity].
    split; [discriminate|]. split; [reflexivity|].
    intros _. cbn [SFmag]. change (inject_Z 0) with 0%Q. split; lra.
  - destruct (binary_round_spec false p 0) as [R V]. split; [|exact V].
    eapply rounds_ext; [|exact R]. rewrite pow2_0. ring.
  - destruct (binary_round_spec true p 0) as [R V]. split; [|exact V].
    eapply rounds_ext; [|exact R]. rewrite pow2_0. ring.
Qed.

Lemma SFdiv_int_spec (a b : Z) :
  b <> 0 ->
  rounds (SFdiv prec emax (int_as_SF a) (int_as_SF b))
         (xorb (a <? 0) (b <? 0))
         (inject_Z (Z.abs a) / inject_Z (Z.abs b))
  /\ valid_binary (SFdiv prec emax (int_as_SF a) (int_as_SF b)) = true.
Proof.
  pose proof eta64_pos as H0.
  intros NZ.
  destruct b as [|pb|pb]; [congruence| |];
    destruct a as [|pa|pa];
    cbn [int_as_SF Z.abs Z.ltb Z.compare];
    try (split; [|apply SFdiv_valid];
         eapply rounds_ext; [|apply SFdiv_rounds];
         cbn [SFmag]; rewrite pow2_0, !Qmult_1_r; reflexivity);
    (split; [|reflexivity]);
    (split; [discriminate|]); (split; [reflexivity|]);
    intros _; cbn [SFdiv SFmag]; change (inject_Z 0) with 0%Q;
    unfold Qdiv; rewrite Qmult_0_l; split; lra.
Qed.

(** The product of two data that are not infinite, unless it overflows. *)
Lemma SFmul_mag (s t : spec_float) :
  SFoverflow s = false -> SFoverflow t = false ->
  SFoverflow (SFmul prec emax s t) = false ->
  SFsign (SFmul prec emax s t) = xorb (SFsign s) (SFsign t)
  /\ (- (u64 * (SFmag s * SFmag t) + eta64)
      <= SFmag (SFmul prec emax s t) - SFmag s * SFmag t
      <= u64 * (SFmag s * SFmag t) + eta64)%Q.
Proof.
  pose proof eta64_pos as H0.
  intros OS OT OP.
  destruct s as [ss|ss| |ss ms es]; try discriminate OS;
    destruct t as [st|st| |st mt et]; try discriminate OT.
  - cbn [SFmul SFsign SFmag]. split; [reflexivity|]. split; lra.
  - cbn [SFmul SFsign]. split; [reflexivity|].
    change (SFmag (S754_zero (xorb ss st))) with 0%Q.
    change (SFmag (S754_zero ss)) with 0%Q. split; lra.
  - cbn [SFmul SFsign]. split; [reflexivity|].
    change (SFmag (S754_zero (xorb ss st))) with 0%Q.
    change (SFmag (S754_zero st)) with 0%Q. split; lra.
  - destruct (SFmul_rounds ss st ms mt es et) as (N & S & B).
    split; [exact S|]. exact (B OP).
Qed.

Lemma int_round_trip_SF (a b : Z) :
  let s := SFdiv prec emax (int_as_SF a) (int_as_SF b) in
  let t := binary_normalize prec emax b 0 false in
  let p := SFmul prec emax s t in
  b <> 0 ->
  SFoverflow s = false ->
  SFoverflow t = false ->
  SFoverflow p = false ->
  (Qabs (SF2Q p - inject_Z a)
   <= 4 * u64 * Qabs (inject_Z a) + 2 * eta64 * Qabs (inject_Z b)
      + 2 * eta64)%Q.
Proof.
  cbn zeta. intros NZ OS OT OP.
  pose proof u64_bounds as [U0 _]. pose proof eta64_pos as H0.
  assert (u64 <= 1 # 16)%Q as U1.
  { change (1 # 16)%Q with (pow2 (-4)). apply pow2_le. lia. }
  assert (eta64 <= u64 * u64)%Q as H1.
  { unfold u64, eta64. rewrite <- pow2_add. apply pow2_le. lia. }
  destruct (binary_normalize_spec b) as [(NT & ST & BT) VT].
  specialize (BT OT).
  destruct (SFdiv_int_spec a b NZ) as [(NS & SS & BS) VS].
  specialize (BS OS).
  destruct (SFmul_mag _ _ OS OT OP) as [SP BP].
  rewrite SS, ST in SP.
  assert (SFsign (SFmul prec emax
                    (SFdiv prec emax (int_as_SF a) (int_as_SF b))
                    (binary_normalize prec emax b 0 false)) = (a <? 0))
    as SG by (rewrite SP; destruct (a <? 0), (b <? 0); reflexivity).
  rewrite !Qabs_inject_Z.
  assert (0 <= inject_Z (Z.abs a))%Q as A0.
  { change 0%Q with (inject_Z 0). rewrite <- Zle_Qle. lia. }
  assert (1 <= inject_Z (Z.abs b))%Q as B0.
  { change 1%Q with (inject_Z 1). rewrite <- Zle_Qle. lia. }
  assert (inject_Z (Z.abs a) / inject_Z (Z.abs b) * inject_Z (Z.abs b)
          == inject_Z (Z.abs a))%Q as XB.
  { rewrite Qmult_comm. apply Qmult_div_r. lra. }
  pose proof (round_trip_bound_int u64 eta64
                (inject_Z (Z.abs a)) (inject_Z (Z.abs b))
                (inject_Z (Z.abs a) / inject_Z (Z.abs b))%Q
                (SFmag (SFdiv prec emax (int_as_SF a) (int_as_SF b)))
                (SFmag (binary_normalize prec emax b 0 false))
                (SFmag (SFmul prec emax
                   (SFdiv prec emax (int_as_SF a) (int_as_SF b))
                   (binary_normalize prec emax b 0 false)))
                U0 U1 H0 H1 A0 B0 XB (SFmag_nonneg _) (SFmag_nonneg _)
                BS BT BP) as RT.
  apply Qabs_Qle_condition. unfold SF2Q. rewrite SG.
  pose proof (inject_Z_abs_sign a) as EA.
  destruct (a <? 0); lra.
Qed.

End Binary64Rounding.

(** For [Fraction]s the round trip is exact. *)
Lemma divide_round_trip_exact :
  forall a b : Qc,
    b <> 0%Qc ->
    exists q : Qc, divide a b = Return q /\ (q * b)%Qc = a.
Proof.
  intros a b N. exists (a / b)%Qc. split.
  - apply divide_Fraction_nonzero, N.
  - field. exact N.
Qed.

(** A finite quotient with a finite product comes from finite operands. *)
Lemma round_trip_operands_finite (a b : float) :
  PrimFloat.eqb b 0 = false ->
  is_finite (a / b) = true ->
  is_finite (a / b * b) = true ->
  is_finite a = true /\ is_finite b = true.
Proof.
  intros NZ FQ FP. rewrite !is_finite_SF in *.
  rewrite mul_spec, div_spec in FP. rewrite div_spec in FQ.
  unfold SF64mul, SF64div in *. rewrite eqb_spec in NZ.
  change (Prim2SF 0) with (S754_zero false) in NZ.
  destruct (Prim2SF a) as [sa|sa| |sa ma ea];
    destruct (Prim2SF b) as [sb|sb| |sb mb eb];
    try (split; reflexivity);
    cbn [SFdiv SFmul SFoverflow] in FQ, FP; try discriminate FQ;
    try discriminate FP;
    destruct sb; discriminate NZ.
Qed.

(** The round trip on [float]s: the product is within three roundings of
    the dividend, and within the spacing of the subnormal numbers where the
    quotient underflows. *)
Lemma float_round_trip (a b : float) :
  PrimFloat.eqb b 0 = false ->
  is_finite (a / b) = true ->
  is_finite (a / b * b) = true ->
  (Qabs (F2Q (a / b * b) - F2Q a)
   <= 3 * u64 * Qabs (F2Q a) + 2 * eta64 * Qabs (F2Q b) + eta64)%Q.
Proof.
  intros NZ FQ FP.
  destruct (round_trip_operands_finite a b NZ FQ FP) as [FA FB].
  destruct (float_nonzero_SF b FB NZ) as (sb & mb & eb & EB).
  apply is_finite_SF in FA, FQ, FP.
  unfold F2Q. rewrite mul_spec, div_spec in *. unfold SF64mul, SF64div in *.
  rewrite EB in *.
  apply SF_round_trip; assumption.
Qed.

(** The round trip on [int]s: the quotient is a [float], and the product
    with the [int] [b] is the product with [float(b)]. *)
Lemma int_round_trip (a b : Z) (q p : float) :
  b <> 0%Z ->
  divide a b = Return q ->
  float_mul_int q b = Return p ->
  is_finite p = true ->
  (Qabs (F2Q p - inject_Z a)
   <= 4 * u64 * Qabs (inject_Z a) + 2 * eta64 * Qabs (inject_Z b)
      + 2 * eta64)%Q.
Proof.
  intros NZ D M FP.
  pose proof (divide_int_nonzero a b NZ) as DI.
  destruct (SFdiv_int_spec a b NZ) as [(NS & _ & _) VS].
  destruct (binary_normalize_spec b) as [(NT & _ & _) VT].
  pose proof (int_round_trip_SF a b) as RT. cbn zeta in RT.
  unfold float_mul_int, int_to_float in M.
  assert (SFoverflow (SFdiv prec emax (int_as_SF a) (int_as_SF b)) = false
          /\ q = SF2Prim (SFdiv prec emax (int_as_SF a) (int_as_SF b)))
    as [OS EQ].
  { destruct (SFdiv prec emax (int_as_SF a) (int_as_SF b));
      try congruence; split; try reflexivity; congruence. }
  assert (SFoverflow (binary_normalize prec emax b 0 false) = false
          /\ p = (q * SF2Prim (binary_normalize prec emax b 0 false))%float)
    as [OT EP].
  { destruct (binary_normalize prec emax b 0 false);
      cbn [bind] in M; try congruence; split; try reflexivity; congruence. }
  apply is_finite_SF in FP. unfold F2Q.
  rewrite EP, EQ, mul_spec, !Prim2SF_SF2Prim in * by assumption.
  unfold SF64mul in *.
  apply RT; assumption.
Qed.

(** C8, as the code has it.  For [a] and [b] with [b] not zero,
    [divide(a, b) * b] equals [a]: exactly for [Fraction]s; for [float]s
    within [3 * 2^-53 * |a| + 2^-1074 * |b| + 2^-1075] whenever the quotient
    and the product are finite; for [int]s, whose quotient is a [float],
    within [4 * 2^-53 * |a| + 2^-1074 * |b| + 2^-1074] whenever neither the
    quotient nor [float(b)] overflows and the product is finite. *)
Theorem divide_round_trip :
  (forall a b : Qc,
     b <> 0%Qc ->
     exists q : Qc, divide a b = Return q /\ (q * b)%Qc = a)
  /\ (forall a b : float,
        PrimFloat.eqb b 0 = false ->
        divide a b = Return (a / b)%float
        /\ (is_finite (a / b) = true ->
            is_finite (a / b * b) = true ->
            (Qabs (F2Q (a / b * b) - F2Q a)
             <= 3 * u64 * Qabs (F2Q a) + 2 * eta64 * Qabs (F2Q b)
                + eta64)%Q))
  /\ (forall (a b : Z) (q p : float),
        b <> 0%Z ->
        divide a b = Return q ->
        float_mul_int q b = Return p ->
        is_finite p = true ->
        (Qabs (F2Q p - inject_Z a)
         <= 4 * u64 * Qabs (inject_Z a) + 2 * eta64 * Qabs (inject_Z b)
            + 2 * eta64)%Q).
Proof.
  split; [|split].
  - apply divide_round_trip_exact.
  - intros a b NZ. split.
    + apply divide_float_nonzero, NZ.
    + apply float_round_trip, NZ.
  - apply int_round_trip.
Qed.

Lemma divide_round_trip_witness :
  (exists q : Qc,
     divide (Q2Qc 7) (Q2Qc 2) = Return q /\ (q * Q2Qc 2)%Qc = Q2Qc 7)
  /\ (Qabs (F2Q (1 / 49 * 49) - F2Q 1)
      <= 3 * u64 * Qabs (F2Q 1) + 2 * eta64 * Qabs (F2Q 49) + eta64)%Q
  /\ (Qabs (F2Q 0x1.fffffffffffffp-1 - inject_Z 1)
      <= 4 * u64 * Qabs (inject_Z 1) + 2 * eta64 * Qabs (inject_Z 49)
         + 2 * eta64)%Q.
Proof.
  split; [|split].
  - apply (proj1 divide_round_trip (Q2Qc 7) (Q2Qc 2)).
    intros E. apply Q2Qc_eq_iff in E. discriminate E.
  - apply (proj2 (proj1 (proj2 divide_round_trip) 1%float 49%float eq_refl));
      reflexivity.
  - apply (proj2 (proj2 divide_round_trip) 1%Z 49%Z
             0x1.4e5e0a72f0539p-6%float 0x1.fffffffffffffp-1%float).
    + lia.
    + vm_compute. reflexivity.
    + vm_compute. reflexivity.
    + reflexivity.
Defined.

(** Only infinity is at or above infinity: no tolerance bounds an infinite
    error. *)
Lemma leb_infinity (tol : float) :
  PrimFloat.leb infinity tol = true -> tol = infinity.
Proof.
  rewrite leb_spec. intros L.
  rewrite <- (SF2Prim_Prim2SF tol).
  change (Prim2SF infinity) with (S754_infinity false) in L.
  destruct (Prim2SF tol) as [s|s| |s m e]; try discriminate L.
  destruct s; [discriminate L|reflexivity].
Qed.

(** C8 as the specification words it fails on [float]s: the quotient of
    [2.0**1023] by [0.5] overflows to infinity, so [divide(a, b) * b] is
    infinite and its distance to [a] exceeds every finite tolerance. *)
Lemma divide_round_trip_float_overflow :
  PrimFloat.eqb 0.5 0 = false
  /\ divide 0x1p+1023%float 0.5%float = Return infinity
  /\ (infinity * 0.5)%float = infinity
  /\ PrimFloat.abs (infinity * 0.5 - 0x1p+1023)%float = infinity
  /\ forall tol : float,
       PrimFloat.leb (PrimFloat.abs (infinity * 0.5 - 0x1p+1023)%float) tol
       = true ->
       tol = infinity.
Proof.
  repeat split. intros tol. apply leb_infinity.
Qed.

(** The two side conditions on [float]s are both needed, and so is the
    absolute term of the tolerance.  The quotient of the largest [float] by
    [3.0] is finite and its product with [3.0] overflows; the quotient of
    the smallest positive [float] by [2.0] underflows to zero, and the
    product is zero where [a] is not. *)
Lemma divide_round_trip_side_conditions :
  is_finite (0x1.fffffffffffffp+1023 / 3)%float = true
  /\ (0x1.fffffffffffffp+1023 / 3 * 3)%float = infinity
  /\ (0x1p-1074 / 2 * 2)%float = 0%float
  /\ PrimFloat.eqb 0x1p-1074 0 = false.
Proof. repeat split. Qed.

(** ** [find_max] *)

Section FindMaxAnyNumber.

Context {A : Type} `{Number A}.

(** [find_max] raises on the empty list only, and then its own error: the
    builtin [max] is never handed an empty list. *)
Lemma find_max_raises (numbers : list A) (e : exn) :
  find_max numbers = Raise e ->
  numbers = [] /\ e = ValueError "List cannot be empty".
Proof.
  destruct numbers as [|x rest]; cbn [find_max py_max]; intros E.
  - injection E as <-. split; reflexivity.
  - discriminate.
Qed.

Lemma find_max_cons (x : A) (rest : list A) :
  find_max (x :: rest) = Return (fold_left max_step rest x).
Proof. reflexivity. Qed.

(** The scan of [max] ends on one of the items it saw. *)
Lemma fold_max_step_In (rest : list A) :
  forall best, In (fold_left max_step rest best) (best :: rest).
Proof.
  induction rest as [|y rest IH]; intros best; cbn [fold_left].
  - left. reflexivity.
  - destruct (IH (max_step best y)) as [E|I].
    + rewrite <- E. unfold max_step.
      destruct (num_ltb best y); [right; left|left]; reflexivity.
    + right. right. exact I.
Qed.

(** The scan ends above every item as soon as, on the items that are [ok],
    [<] is the strict part of a total preorder [le]. *)
Section Ordered.

Variable ok : A -> Prop.
Variable le : A -> A -> Prop.
Hypothesis le_refl : forall x, ok x -> le x x.
Hypothesis le_trans :
  forall x y z, ok x -> ok y -> ok z -> le x y -> le y z -> le x z.
Hypothesis ltb_le : forall x y, ok x -> ok y -> num_ltb x y = true -> le x y.
Hypothesis nltb_ge :
  forall x y, ok x -> ok y -> num_ltb x y = false -> le y x.

Lemma max_step_upper (best item : A) :
  ok best -> ok item ->
  ok (max_step best item)
  /\ le best (max_step best item)
  /\ le item (max_step best item).
Proof.
  intros Ob Oi. unfold max_step.
  destruct (num_ltb best item) eqn:L; repeat split; auto.
Qed.

Lemma fold_max_step_ok (rest : list A) :
  forall best, ok best -> Forall ok rest -> ok (fold_left max_step rest best).
Proof.
  induction rest as [|y rest IH]; intros best Ob Or; cbn [fold_left].
  - exact Ob.
  - apply Forall_cons_iff in Or. destruct Or as [Oy Or].
    apply IH; [|exact Or]. apply max_step_upper; assumption.
Qed.

Lemma fold_max_step_upper (rest : list A) :
  forall best x,
    ok best -> Forall ok rest ->
    In x (best :: rest) -> le x (fold_left max_step rest best).
Proof.
  induction rest as [|y rest IH]; intros best x Ob Or I; cbn [fold_left].
  - destruct I as [<-|[]]. apply le_refl, Ob.
  - apply Forall_cons_iff in Or. destruct Or as [Oy Or].
    destruct (max_step_upper best y Ob Oy) as (Om & Lb & Ly).
    pose proof (fold_max_step_ok rest _ Om Or) as Of.
    pose proof (IH _ _ Om Or (or_introl eq_refl)) as Lm.
    destruct I as [<-|[<-|I]].
    + exact (le_trans _ _ _ Ob Om Of Lb Lm).
    + exact (le_trans _ _ _ Oy Om Of Ly Lm).
    + apply IH; [exact Om|exact Or|right; exact I].
Qed.

Lemma find_max_is_maximum (numbers : list A) :
  Forall ok numbers ->
  numbers <> [] ->
  exists m : A,
    find_max numbers = Return m
    /\ In m numbers
    /\ forall x, In x numbers -> le x m.
Proof.
  destruct numbers as [|x rest]; [congruence|]. intros O _.
  apply Forall_cons_iff in O. destruct O as [Ox Or].
  exists (fold_left max_step rest x). rewrite find_max_cons.
  split; [reflexivity|]. split.
  - apply fold_max_step_In.
  - intros y I. apply fold_max_step_upper; assumption.
Qed.

End Ordered.

End FindMaxAnyNumber.

(** The order of binary64 is a total preorder away from NaN. *)

Lemma SFle_refl (x : spec_float) : x <> S754_nan -> SFle x x.
Proof.
  destruct x as [sx|sx| |sx mx ex]; intros N; try congruence; sf_compare.
Qed.

Lemma SFltb_SFle (x y : spec_float) : SFltb x y = true -> SFle x y.
Proof.
  unfold SFle, SFltb, SFleb. destruct (SFcompare x y) as [[| |]|]; congruence.
Qed.

Lemma SFltb_false_SFle (x y : spec_float) :
  x <> S754_nan -> y <> S754_nan -> SFltb x y = false -> SFle y x.
Proof.
  destruct x as [sx|sx| |sx mx ex], y as [sy|sy| |sy my ey];
    intros Nx Ny; try congruence; sf_compare.
Qed.

Lemma SFle_trans (x y z : spec_float) : SFle x y -> SFle y z -> SFle x z.
Proof.
  destruct x as [sx|sx| |sx mx ex], y as [sy|sy| |sy my ey],
    z as [sz|sz| |sz mz ez]; sf_compare.
Qed.

Lemma not_nan_SF (x : float) : is_nan x = false -> Prim2SF x <> S754_nan.
Proof.
  unfold is_nan. rewrite eqb_spec. intros E N. rewrite N in E. discriminate E.
Qed.

Lemma find_max_float_is_maximum (numbers : list float) :
  Forall (fun x => is_nan x = false) numbers ->
  numbers <> [] ->
  exists m : float,
    find_max numbers = Return m
    /\ In m numbers
    /\ forall x, In x numbers -> PrimFloat.leb x m = true.
Proof.
  apply (find_max_is_maximum (fun x => is_nan x = false)
           (fun x y => PrimFloat.leb x y = true)).
  - intros x Ox. rewrite leb_spec. apply SFle_refl, not_nan_SF, Ox.
  - intros x y z _ _ _. rewrite !leb_spec. apply SFle_trans.
  - intros x y _ _. cbn [num_ltb Number_float].
    rewrite ltb_spec, leb_spec. apply SFltb_SFle.
  - intros x y Ox Oy. cbn [num_ltb Number_float].
    rewrite ltb_spec, leb_spec.
    apply SFltb_false_SFle; apply not_nan_SF; assumption.
Qed.

(** C4.  [find_max(numbers)] raises [ValueError] if and only if [numbers] is
    empty; on every non-empty list of numbers ([int]s, [Fraction]s, or
    [float]s none of which is NaN) it returns the maximum: an element of the
    list that is [>=] every element; and [find_max([3, 1, 4, 1, 5]) = 5]. *)
Theorem find_max_spec :
  (forall (A : Type) (N : Number A) (numbers : list A),
     (exists msg, find_max numbers = Raise (ValueError msg))
     <-> numbers = [])
  /\ (forall numbers : list Z,
        numbers <> [] ->
        exists m : Z,
          find_max numbers = Return m
          /\ In m numbers
          /\ forall x, In x numbers -> (x <= m)%Z)
  /\ (forall numbers : list Qc,
        numbers <> [] ->
        exists m : Qc,
          find_max numbers = Return m
          /\ In m numbers
          /\ forall x, In x numbers -> (x <= m)%Qc)
  /\ (forall numbers : list float,
        Forall (fun x => is_nan x = false) numbers ->
        numbers <> [] ->
        exists m : float,
          find_max numbers = Return m
          /\ In m numbers
          /\ forall x, In x numbers -> PrimFloat.leb x m = true)
  /\ find_max [3; 1; 4; 1; 5]%Z = Return 5%Z.
Proof.
  split; [|split; [|split; [|split]]].
  - intros A N numbers. split.
    + intros [msg E]. apply find_max_raises in E. apply E.
    + intros ->. eexists. reflexivity.
  - intros numbers.
    apply (find_max_is_maximum (fun _ => True) Z.le).
    + intros x _. apply Z.le_refl.
    + intros x y z _ _ _. apply Z.le_trans.
    + intros x y _ _ L. apply Z.ltb_lt in L. lia.
    + intros x y _ _ L. apply Z.ltb_ge in L. exact L.
    + apply Forall_forall. intros x _. exact I.
  - intros numbers.
    apply (find_max_is_maximum (fun _ => True) Qcle).
    + intros x _. apply Qcle_refl.
    + intros x y z _ _ _. apply Qcle_trans.
    + intros x y _ _ L. apply Qc_ltb_lt in L. apply Qclt_le_weak, L.
    + intros x y _ _ L. apply Qc_ltb_ge in L. exact L.
    + apply Forall_forall. intros x _. exact I.
  - exact find_max_float_is_maximum.
  - reflexivity.
Qed.

Lemma find_max_spec_witness :
  exists m : Z,
    find_max [3; 1; 4; 1; 5]%Z = Return m
    /\ In m [3; 1; 4; 1; 5]%Z
    /\ forall x, In x [3; 1; 4; 1; 5]%Z -> (x <= m)%Z.
Proof.
  apply (proj1 (proj2 find_max_spec) [3; 1; 4; 1; 5]%Z).
  discriminate.
Defined.

(** ** Error messages *)

(** C6.  Whenever [divide], [find_max] or [factorial] raises its
    [ValueError] (on a zero divisor, an empty list, a negative argument),
    the message is exactly ["Cannot divide by zero"],
    ["List cannot be empty"], ["Factorial not defined for negative numbers"]
    respectively; no other [ValueError] leaves these functions. *)
Theorem error_messages :
  (forall (A : Type) (N : Number A) (D : TrueDiv A) (a b : A),
     num_eqb b num_zero = true ->
     divide a b = Raise (ValueError "Cannot divide by zero"))
  /\ (forall (a b : Z) (msg : string),
        divide a b = Raise (ValueError msg) -> msg = "Cannot divide by zero")
  /\ (forall (a b : Qc) (msg : string),
        divide a b = Raise (ValueError msg) -> msg = "Cannot divide by zero")
  /\ (forall (a b : float) (msg : string),
        divide a b = Raise (ValueError msg) -> msg = "Cannot divide by zero")
  /\ (forall (A : Type) (N : Number A),
        find_max (@nil A) = Raise (ValueError "List cannot be empty"))
  /\ (forall (A : Type) (N : Number A) (numbers : list A) (msg : string),
        find_max numbers = Raise (ValueError msg) ->
        msg = "List cannot be empty")
  /\ (forall (A : Type) (N : Number A) (fuel : nat) (n : A),
        num_ltb n num_zero = true ->
        factorial (S fuel) n =
        Some (Raise (ValueError "Factorial not defined for negative numbers")))
  /\ (forall (A : Type) (N : Number A) (fuel : nat) (n : A) (msg : string),
        factorial fuel n = Some (Raise (ValueError msg)) ->
        msg = "Factorial not defined for negative numbers").
Proof.
  repeat apply conj.
  - intros A N D a b E. apply divide_zero, E.
  - intros a b msg E.
    apply divide_ValueError in E; [apply E|apply int_truediv_no_ValueError].
  - intros a b msg E.
    apply divide_ValueError in E;
      [apply E|apply Fraction_truediv_no_ValueError].
  - intros a b msg E.
    apply divide_ValueError in E; [apply E|apply float_truediv_no_ValueError].
  - reflexivity.
  - intros A N numbers msg E. apply find_max_raises in E.
    destruct E as [_ E]. injection E as ->. reflexivity.
  - intros A N fuel n E. cbn [factorial]. rewrite E. reflexivity.
  - intros A N fuel n msg E. apply factorial_raises_only in E.
    injection E as ->. reflexivity.
Qed.

Lemma error_messages_witness :
  divide 5%Z 0%Z = Raise (ValueError "Cannot divide by zero")
  /\ factorial 1 (-1)%Z =
     Some (Raise (ValueError "Factorial not defined for negative numbers")).
Proof.
  split.
  - apply (proj1 error_messages Z _ _ 5%Z 0%Z). reflexivity.
  - apply (proj1 (proj2 (proj2 (proj2 (proj2 (proj2 (proj2 error_messages))))))
             Z _ 0%nat (-1)%Z).
    reflexivity.
Defined.

(** ** [Calculator] *)

Section CalculatorAnyNumber.

Context {A : Type} `{Number A}.

(** Each method returns the attribute as it leaves it. *)
Lemma perform_returns_result (self : Calculator.t A) (c : Calculator.call A) :
  fst (Calculator.perform self c)
  = Calculator.result (snd (Calculator.perform self c)).
Proof. destruct c; reflexivity. Qed.

Lemma run_cons (self : Calculator.t A) (c : Calculator.call A)
      (rest : list (Calculator.call A)) :
  Calculator.run self (c :: rest)
  = (fst (Calculator.perform self c)
       :: fst (Calculator.run (snd (Calculator.perform self c)) rest),
     snd (Calculator.run (snd (Calculator.perform self c)) rest)).
Proof.
  cbn [Calculator.run].
  destruct (Calculator.perform self c) as [returned self']. cbn [fst snd].
  destruct (Calculator.run self' rest) as [returns final]. reflexivity.
Qed.

Lemma run_snoc (calls : list (Calculator.call A)) :
  forall (self : Calculator.t A) (c : Calculator.call A),
    Calculator.run self (calls ++ [c])%list
    = ((fst (Calculator.run self calls)
          ++ [fst (Calculator.perform (snd (Calculator.run self calls)) c)])%list,
       snd (Calculator.perform (snd (Calculator.run self calls)) c)).
Proof.
  induction calls as [|c' calls IH]; intros self c.
  - cbn [app]. rewrite run_cons. reflexivity.
  - cbn [app]. rewrite !run_cons, IH. reflexivity.
Qed.

Lemma since_reset_no_reset (calls : list (Calculator.call A)) :
  existsb is_reset calls = false -> since_reset calls = calls.
Proof.
  destruct calls as [|c rest]; [reflexivity|].
  cbn [existsb since_reset]. intros E.
  apply orb_false_iff in E. destruct E as [Ec Er].
  rewrite Er, Ec. reflexivity.
Qed.

(** On every numeric type, [result] is the running sum of the calls made
    since the last [reset], taken in the order of the calls. *)
Lemma run_running_sum (calls : list (Calculator.call A)) :
  forall self : Calculator.t A,
    Calculator.result (snd (Calculator.run self calls))
    = fold_left accumulate (since_reset calls)
        (if existsb is_reset calls then num_zero else Calculator.result self).
Proof.
  induction calls as [|c rest IH]; intros self.
  - reflexivity.
  - rewrite run_cons. cbn [snd]. rewrite IH.
    cbn [existsb since_reset].
    destruct (existsb is_reset rest) eqn:R.
    + rewrite orb_true_r. reflexivity.
    + rewrite orb_false_r, (since_reset_no_reset rest R).
      destruct c as [value|value|]; reflexivity.
Qed.

Lemma run_init_running_sum (calls : list (Calculator.call A)) :
  Calculator.result (snd (Calculator.run Calculator.init calls))
  = running_sum calls.
Proof.
  rewrite run_running_sum. unfold running_sum.
  destruct (existsb is_reset calls); reflexivity.
Qed.

Lemma call_returns_running_sum (calls : list (Calculator.call A))
      (c : Calculator.call A) :
  fst (Calculator.perform (snd (Calculator.run Calculator.init calls)) c)
  = running_sum (calls ++ [c])%list.
Proof.
  rewrite perform_returns_result.
  rewrite <- (run_init_running_sum (calls ++ [c])%list), run_snoc.
  reflexivity.
Qed.

(** The invariant, as soon as the arithmetic is that of a ring. *)
Section Exact.

Variable opp : A -> A.
Hypothesis Rth :
  ring_theory num_zero num_one num_add num_mul num_sub opp (@eq A).

Add Ring number_ring : Rth.

Lemma run_from (calls : list (Calculator.call A)) :
  forall self : Calculator.t A,
    Calculator.result (snd (Calculator.run self calls))
    = num_sub
        (num_add
           (if existsb is_reset calls then num_zero
            else Calculator.result self)
           (sum_added (since_reset calls)))
        (sum_subtracted (since_reset calls)).
Proof.
  induction calls as [|c rest IH]; intros self.
  - cbn. ring.
  - rewrite run_cons. cbn [snd]. rewrite IH.
    cbn [existsb since_reset].
    destruct (existsb is_reset rest) eqn:R.
    + rewrite orb_true_r. reflexivity.
    + rewrite orb_false_r, (since_reset_no_reset rest R).
      destruct c as [value|value|]; cbn; ring.
Qed.

Lemma run_from_init (calls : list (Calculator.call A)) :
  Calculator.result (snd (Calculator.run Calculator.init calls))
  = expected_result calls.
Proof.
  rewrite run_from. unfold expected_result.
  destruct (existsb is_reset calls); cbn; ring.
Qed.

End Exact.

End CalculatorAnyNumber.

Section CalculatorReturns.

Context {A : Type} `{Number A}.
Variable opp : A -> A.
Hypothesis Rth :
  ring_theory num_zero num_one num_add num_mul num_sub opp (@eq A).

(** A call made after [calls] returns what the invariant says [result] is
    once the call is counted. *)
Lemma call_returns_expected (calls : list (Calculator.call A))
      (c : Calculator.call A) :
  fst (Calculator.perform (snd (Calculator.run Calculator.init calls)) c)
  = expected_result (calls ++ [c])%list.
Proof.
  rewrite perform_returns_result.
  rewrite <- (run_from_init opp Rth (calls ++ [c])%list), run_snoc.
  reflexivity.
Qed.

End CalculatorReturns.

(** C5 as the specification words it fails on [float]s: after [add(1e16)],
    [add(1.0)], [subtract(1e16)], [add(1.0)] on a new instance [result] is
    [1.0], where the sum of the values passed to [add] minus the sum of the
    values passed to [subtract] is [2]: the first [add(1.0)] is absorbed by
    the rounding of [1e16 + 1.0]. *)
Lemma calculator_float_rounding :
  let calls := [Calculator.Add 1e16; Calculator.Add 1;
                Calculator.Subtract 1e16; Calculator.Add 1]%float in
  fst (Calculator.run Calculator.init calls) = [1e16; 1e16; 0; 1]%float
  /\ Calculator.result (snd (Calculator.run Calculator.init calls)) = 1%float
  /\ expected_result calls = 2%float
  /\ PrimFloat.eqb 1 2 = false
  /\ (F2Q (Calculator.result (snd (Calculator.run Calculator.init calls)))
      == 1)%Q
  /\ (F2Q 1e16 + F2Q 1 + F2Q 1 - F2Q 1e16 == 2)%Q.
Proof. cbn zeta. repeat split. Qed.

(** C5, as the code has it.  A new [Calculator] has [result = 0].  After
    every finite sequence of [add], [subtract] and [reset] calls on a new
    instance, over [int]s or over [Fraction]s, [result] is the sum of the
    values passed to [add] minus the sum of the values passed to [subtract]
    since the most recent [reset] (since construction if there was none),
    and every call returns that updated [result].  On every numeric type,
    [float] included, [result] is the running sum of those calls: from [0],
    each value added or subtracted in the order of the calls, with the
    rounding of the type at each step; every call returns the updated
    [result].  [add(5)], [subtract(2)], [add(10)] on a new instance return
    5, 3 and 13, and [reset()] after any sequence returns 0 and leaves
    [result = 0]. *)
Theorem calculator_invariant :
  Calculator.result (@Calculator.init Z _) = 0%Z
  /\ (forall calls : list (Calculator.call Z),
        Calculator.result (snd (Calculator.run Calculator.init calls))
        = expected_result calls)
  /\ (forall calls : list (Calculator.call Qc),
        Calculator.result (snd (Calculator.run Calculator.init calls))
        = expected_result calls)
  /\ (forall (calls : list (Calculator.call Z)) (c : Calculator.call Z),
        fst (Calculator.perform (snd (Calculator.run Calculator.init calls)) c)
        = expected_result (calls ++ [c])%list)
  /\ (forall (calls : list (Calculator.call Qc)) (c : Calculator.call Qc),
        fst (Calculator.perform (snd (Calculator.run Calculator.init calls)) c)
        = expected_result (calls ++ [c])%list)
  /\ (forall (A : Type) (N : Number A) (self : Calculator.t A) (value : A),
        Calculator.add self value
        = (num_add (Calculator.result self) value,
           {| Calculator.result := num_add (Calculator.result self) value |})
        /\ Calculator.subtract self value
           = (num_sub (Calculator.result self) value,
              {| Calculator.result := num_sub (Calculator.result self) value |})
        /\ Calculator.reset self
           = (num_zero, {| Calculator.result := num_zero |}))
  /\ fst (Calculator.run Calculator.init
            [Calculator.Add 5; Calculator.Subtract 2; Calculator.Add 10]%Z)
     = [5; 3; 13]%Z
  /\ (forall calls : list (Calculator.call Z),
        Calculator.reset (snd (Calculator.run Calculator.init calls))
        = (0%Z, {| Calculator.result := 0%Z |}))
  /\ (forall (A : Type) (N : Number A),
        Calculator.result (@Calculator.init A N) = num_zero)
  /\ (forall (A : Type) (N : Number A) (calls : list (Calculator.call A)),
        Calculator.result (snd (Calculator.run Calculator.init calls))
        = running_sum calls)
  /\ (forall (A : Type) (N : Number A) (calls : list (Calculator.call A))
             (c : Calculator.call A),
        fst (Calculator.perform (snd (Calculator.run Calculator.init calls)) c)
        = running_sum (calls ++ [c])%list)
  /\ fst (Calculator.run Calculator.init
            [Calculator.Add 5; Calculator.Subtract 2; Calculator.Add 10]%float)
     = [5; 3; 13]%float
  /\ (forall (A : Type) (N : Number A) (calls : list (Calculator.call A)),
        Calculator.reset (snd (Calculator.run Calculator.init calls))
        = (num_zero, {| Calculator.result := num_zero |})).
Proof.
  repeat apply conj.
  - reflexivity.
  - apply (@run_from_init Z Number_int Z.opp Zth).
  - apply (@run_from_init Qc Number_Fraction Qcopp Qcrt).
  - apply (@call_returns_expected Z Number_int Z.opp Zth).
  - apply (@call_returns_expected Qc Number_Fraction Qcopp Qcrt).
  - intros A N self value. repeat split.
  - reflexivity.
  - reflexivity.
  - reflexivity.
  - intros A N. apply run_init_running_sum.
  - intros A N. apply call_returns_running_sum.
  - reflexivity.
  - reflexivity.
Qed.

(** ** [is_valid_email] *)

Lemma prefix_empty (s : string) : prefix "" s = true.
Proof. destruct s; reflexivity. Qed.

(** [c in s] for a needle of one character is the occurrence of the
    character. *)
Lemma str_in_char (c : ascii) (s : string) :
  str_in (String c "") s = has_char c s.
Proof.
  induction s as [|x s IH]; [reflexivity|].
  cbn [str_in has_char prefix]. rewrite IH.
  destruct (ascii_dec c x) as [<-|N].
  - rewrite prefix_empty, Ascii.eqb_refl. reflexivity.
  - apply not_eq_sym, Ascii.eqb_neq in N. rewrite N. reflexivity.
Qed.

Lemma has_char_app (c : ascii) (s t : string) :
  has_char c (s ++ t) = has_char c s || has_char c t.
Proof.
  induction s as [|x s IH]; [reflexivity|].
  cbn [append has_char]. rewrite IH. apply orb_assoc.
Qed.

Lemma split_not_nil (sep : ascii) (s : string) : split sep s <> [].
Proof.
  destruct s as [|c s]; cbn [split]; [discriminate|].
  destruct (Ascii.eqb c sep); [discriminate|].
  destruct (split sep s); discriminate.
Qed.

(** A string without the separator is its own single piece. *)
Lemma split_no_sep (sep : ascii) (s : string) :
  has_char sep s = false -> split sep s = [s].
Proof.
  induction s as [|c s IH]; [reflexivity|].
  cbn [has_char split]. intros E.
  apply orb_false_iff in E. destruct E as [Ec Es].
  rewrite Ec, (IH Es). reflexivity.
Qed.

(** The first separator ends the first piece. *)
Lemma split_app (sep : ascii) (p rest : string) :
  has_char sep p = false ->
  split sep (p ++ String sep rest) = p :: split sep rest.
Proof.
  induction p as [|c p IH]; cbn [append has_char split]; intros E.
  - rewrite Ascii.eqb_refl. reflexivity.
  - apply orb_false_iff in E. destruct E as [Ec Ep].
    rewrite Ec, (IH Ep). reflexivity.
Qed.

(** No piece contains the separator. *)
Lemma split_pieces (sep : ascii) (s : string) :
  Forall (fun p => has_char sep p = false) (split sep s).
Proof.
  induction s as [|c s IH]; cbn [split].
  - constructor; [reflexivity|constructor].
  - destruct (Ascii.eqb c sep) eqn:E.
    + constructor; [reflexivity|exact IH].
    + destruct (split sep s) as [|p ps]; inversion IH; subst;
        constructor; cbn [has_char]; try rewrite E; auto.
Qed.

(** Joining the pieces with the separator gives the string back. *)
Lemma join_split (sep : ascii) (s : string) : join sep (split sep s) = s.
Proof.
  induction s as [|c s IH]; [reflexivity|].
  cbn [split]. destruct (Ascii.eqb_spec c sep) as [->|N].
  - pose proof (split_not_nil sep s) as NN.
    destruct (split sep s) as [|p ps]; [congruence|].
    cbn [join append] in *. rewrite IH. reflexivity.
  - pose proof (split_not_nil sep s) as NN.
    destruct (split sep s) as [|p ps]; [congruence|].
    destruct ps as [|q ps]; cbn [join append] in *; rewrite <- IH; reflexivity.
Qed.

(** The source's function follows the rule of the specification. *)
Lemma is_valid_email_rule (email : string) :
  is_valid_email email = email_rule email.
Proof.
  unfold is_valid_email, email_rule. rewrite !str_in_char.
  destruct email as [|c email]; [reflexivity|].
  cbn [str_bool negb orb String.eqb].
  destruct (has_char "@" (String c email)); [|reflexivity].
  destruct (has_char "." (String c email)); [|reflexivity].
  cbn [negb orb].
  destruct (split "@" (String c email)) as [|p [|q [|r ps]]];
    try reflexivity.
  cbn [List.length Nat.eqb negb nth].
  destruct (has_char "." q); reflexivity.
Qed.

(** What the rule amounts to: one ["@"], and a ["."] after it. *)
Lemma is_valid_email_iff (email : string) :
  is_valid_email email = true
  <-> exists local domain : string,
        email = local ++ String "@" domain
        /\ has_char "@" local = false
        /\ has_char "@" domain = false
        /\ has_char "." domain = true.
Proof.
  rewrite is_valid_email_rule. unfold email_rule. split.
  - destruct (String.eqb email ""); [discriminate|].
    destruct (has_char "@" email); [|discriminate].
    destruct (has_char "." email); [|discriminate]. cbn [negb].
    pose proof (join_split "@" email) as J.
    pose proof (split_pieces "@" email) as P.
    destruct (split "@" email) as [|p [|q [|r ps]]]; try discriminate.
    intros E. exists p, q.
    apply Forall_cons_iff in P. destruct P as [Pp P].
    apply Forall_cons_iff in P. destruct P as [Pq _].
    cbn [join] in J. repeat split; auto.
    destruct (has_char "." q); [reflexivity|discriminate].
  - intros (l & d & -> & Nl & Nd & Dd).
    assert (String.eqb (l ++ String "@" d) "" = false) as ->.
    { apply String.eqb_neq. destruct l; discriminate. }
    rewrite !has_char_app. cbn [has_char]. rewrite Nl, Nd, Dd.
    cbn [Ascii.eqb ascii_rec ascii_rect Bool.eqb]. 
    rewrite !orb_true_r. cbn [negb orb].
    rewrite split_app by exact Nl. rewrite (split_no_sep _ _ Nd).
    rewrite Dd. reflexivity.
Qed.

(** C2.  For every string [email], [is_valid_email(email)] is the boolean
    the rule of the specification computes, and in particular it is true of
    ["a@b.com"] and false of [""], ["no-at-sign.com"], ["a@b@c.com"] and
    ["a@bcom"]. *)
Theorem is_valid_email_spec :
  (forall email : string, is_valid_email email = email_rule email)
  /\ is_valid_email "a@b.com" = true
  /\ is_valid_email "" = false
  /\ is_valid_email "no-at-sign.com" = false
  /\ is_valid_email "a@b@c.com" = false
  /\ is_valid_email "a@bcom" = false.
Proof.
  split; [exact is_valid_email_rule|].
  repeat split.
Qed.

(** C9.  The part before ["@"] may be empty: for every non-empty string [d]
    that contains ["."] and no ["@"], [is_valid_email("@" + d)] is true. *)
Theorem is_valid_email_empty_local (d : string) :
  d <> "" ->
  has_char "." d = true ->
  has_char "@" d = false ->
  is_valid_email ("@" ++ d) = true.
Proof.
  intros _ Dot NoAt. apply is_valid_email_iff.
  exists "", d. repeat split; assumption.
Qed.

Lemma is_valid_email_empty_local_witness : is_valid_email "@b.com" = true.
Proof.
  apply (is_valid_email_empty_local "b.com").
  - discriminate.
  - reflexivity.
  - reflexivity.
Defined.

(** * Further properties of the module *)

(** ** [divide]: the exceptions that can leave it *)

(** The guard [b == 0] of [divide] covers the zero test of [/] itself:
    [ZeroDivisionError] never leaves [divide].  On [Fraction]s and [float]s
    the [ValueError] of the guard is the only exception; on [int]s the only
    other one is the [OverflowError] of a quotient too large for a [float]. *)
Theorem divide_exceptions :
  (forall (a b : Z) (e : exn),
     divide a b = Raise e ->
     e = ValueError "Cannot divide by zero" \/ e = OverflowError)
  /\ (forall (a b : Qc) (e : exn),
        divide a b = Raise e -> e = ValueError "Cannot divide by zero")
  /\ (forall (a b : float) (e : exn),
        divide a b = Raise e -> e = ValueError "Cannot divide by zero").
Proof.
  split; [|split]; intros a b e; unfold divide;
    cbn [num_eqb num_zero truediv Number_int Number_Fraction Number_float
         TrueDiv_int TrueDiv_Fraction TrueDiv_float].
  - unfold int_truediv. destruct (b =? 0)%Z.
    + intros E. injection E as <-. left. reflexivity.
    + destruct (SFdiv prec emax (int_as_SF a) (int_as_SF b));
        intros E; try discriminate E.
      injection E as <-. right. reflexivity.
  - unfold Fraction_truediv. destruct (Qc_eq_bool b 0).
    + intros E. injection E as <-. reflexivity.
    + discriminate.
  - unfold float_truediv. destruct (PrimFloat.eqb b 0).
    + intros E. injection E as <-. reflexivity.
    + discriminate.
Qed.

Lemma divide_exceptions_witness :
  ValueError "Cannot divide by zero" = ValueError "Cannot divide by zero"
  \/ ValueError "Cannot divide by zero" = OverflowError.
Proof.
  apply (proj1 divide_exceptions 5%Z 0%Z). reflexivity.
Defined.

(** The zeros of binary64: [b == 0] holds of [0.0] and of [-0.0] only. *)
Lemma float_eqb_zero (b : float) :
  PrimFloat.eqb b 0 = true <-> b = 0%float \/ b = (-0)%float.
Proof.
  split.
  - rewrite eqb_spec. change (Prim2SF 0) with (S754_zero false).
    intros E. rewrite <- (SF2Prim_Prim2SF b).
    destruct (Prim2SF b) as [s|s| |s m e];
      try discriminate E; destruct s; try discriminate E;
      [right|left]; reflexivity.
  - intros [->| ->]; reflexivity.
Qed.

(** On [float]s, [divide(a, b)] raises exactly when [b] is one of the two
    zeros: the negative zero is a zero divisor too. *)
Theorem divide_float_raises_on_both_zeros (a b : float) :
  divide a b = Raise (ValueError "Cannot divide by zero")
  <-> b = 0%float \/ b = (-0)%float.
Proof.
  rewrite <- float_eqb_zero. split.
  - intros E. apply divide_ValueError in E;
      [apply E|apply float_truediv_no_ValueError].
  - intros E. apply divide_zero. exact E.
Qed.

(** On [Fraction]s, [divide] undoes a multiplication by a divisor that is
    not zero. *)
Theorem divide_undoes_multiplication (a b : Qc) :
  b <> 0%Qc -> divide (a * b)%Qc b = Return a.
Proof.
  intros N. rewrite divide_Fraction_nonzero by exact N.
  f_equal. field. exact N.
Qed.

Lemma divide_undoes_multiplication_witness :
  divide (Q2Qc 7 * Q2Qc 2)%Qc (Q2Qc 2) = Return (Q2Qc 7).
Proof.
  apply (divide_undoes_multiplication (Q2Qc 7) (Q2Qc 2)).
  intros E. apply Q2Qc_eq_iff in E. discriminate E.
Defined.

(** On [int]s, a zero numerator gives a zero quotient that carries the sign
    of the divisor: [0 / b] is [0.0] for [b > 0] and [-0.0] for [b < 0]. *)
Theorem divide_int_zero_numerator (b : Z) :
  (0 < b -> divide 0%Z b = Return 0%float)
  /\ (b < 0 -> divide 0%Z b = Return (-0)%float).
Proof.
  split; intros L; destruct b as [|p|p]; try lia; reflexivity.
Qed.

Lemma divide_int_zero_numerator_witness :
  divide 0%Z (-5)%Z = Return (-0)%float.
Proof.
  apply (proj2 (divide_int_zero_numerator (-5))). lia.
Defined.

(** ** [find_max]: order of the items, concatenation, NaN *)

Section FindMaxUnique.

Context {A : Type} `{Number A}.

Variable le : A -> A -> Prop.
Hypothesis le_refl : forall x, le x x.
Hypothesis le_trans : forall x y z, le x y -> le y z -> le x z.
Hypothesis le_antisym : forall x y, le x y -> le y x -> x = y.
Hypothesis ltb_le : forall x y, num_ltb x y = true -> le x y.
Hypothesis nltb_ge : forall x y, num_ltb x y = false -> le y x.

Lemma find_max_of_total_order (numbers : list A) (m : A) :
  find_max numbers = Return m ->
  In m numbers /\ forall x, In x numbers -> le x m.
Proof.
  intros E.
  assert (numbers <> []) as NE by (intros ->; discriminate E).
  destruct (find_max_is_maximum (fun _ => True) le
              (fun x _ => le_refl x)
              (fun x y z _ _ _ => le_trans x y z)
              (fun x y _ _ => ltb_le x y)
              (fun x y _ _ => nltb_ge x y)
              numbers) as (m' & E' & Im & Um).
  - apply Forall_forall. intros x _. exact I.
  - exact NE.
  - rewrite E in E'. injection E' as <-. split; assumption.
Qed.

Lemma find_max_returns (numbers : list A) :
  numbers <> [] -> exists m, find_max numbers = Return m.
Proof.
  destruct numbers as [|x rest]; [congruence|]. intros _.
  eexists. apply find_max_cons.
Qed.

(** Over a total order, an item that is above every item is what [find_max]
    returns. *)
Lemma find_max_characterized (numbers : list A) (m : A) :
  In m numbers ->
  (forall x, In x numbers -> le x m) ->
  find_max numbers = Return m.
Proof.
  intros Im Um.
  assert (numbers <> []) as NE by (intros ->; exact Im).
  destruct (find_max_returns numbers NE) as [m' E].
  destruct (find_max_of_total_order _ _ E) as [Im' Um'].
  rewrite E. f_equal. apply le_antisym; auto.
Qed.

Lemma find_max_Permutation (l l' : list A) :
  Permutation l l' -> find_max l = find_max l'.
Proof.
  intros P. destruct l as [|x rest].
  - apply Permutation_nil in P. subst l'. reflexivity.
  - destruct (find_max_returns (x :: rest)) as [m E]; [discriminate|].
    destruct (find_max_of_total_order _ _ E) as [Im Um].
    rewrite E. symmetry. apply find_max_characterized.
    + apply (Permutation_in _ P), Im.
    + intros y Iy. apply Um.
      apply (Permutation_in _ (Permutation_sym P)), Iy.
Qed.

Lemma find_max_app (l1 l2 : list A) (m1 m2 : A) :
  find_max l1 = Return m1 ->
  find_max l2 = Return m2 ->
  find_max (l1 ++ l2)%list = Return (max_step m1 m2).
Proof.
  intros E1 E2.
  destruct (find_max_of_total_order _ _ E1) as [I1 U1].
  destruct (find_max_of_total_order _ _ E2) as [I2 U2].
  apply find_max_characterized.
  - apply in_or_app. unfold max_step.
    destruct (num_ltb m1 m2); [right|left]; assumption.
  - intros x Ix. apply in_app_or in Ix. unfold max_step.
    destruct (num_ltb m1 m2) eqn:L.
    + destruct Ix as [Ix|Ix]; [|apply U2, Ix].
      apply le_trans with m1; [apply U1, Ix|apply ltb_le, L].
    + destruct Ix as [Ix|Ix]; [apply U1, Ix|].
      apply le_trans with m2; [apply U2, Ix|apply nltb_ge, L].
Qed.

End FindMaxUnique.

Lemma Z_ltb_le (x y : Z) : num_ltb x y = true -> (x <= y)%Z.
Proof. int_ops. intros L. apply Z.ltb_lt in L. lia. Qed.

Lemma Z_nltb_ge (x y : Z) : num_ltb x y = false -> (y <= x)%Z.
Proof. int_ops. intros L. apply Z.ltb_ge in L. exact L. Qed.

Lemma Qc_ltb_le (x y : Qc) : num_ltb x y = true -> (x <= y)%Qc.
Proof. frac_ops. intros L. apply Qc_ltb_lt in L. apply Qclt_le_weak, L. Qed.

Lemma Qc_nltb_ge (x y : Qc) : num_ltb x y = false -> (y <= x)%Qc.
Proof. frac_ops. intros L. apply Qc_ltb_ge in L. exact L. Qed.

(** The answer of [find_max] does not depend on the order of the items, for
    [int]s and for [Fraction]s. *)
Theorem find_max_order_independent :
  (forall l l' : list Z, Permutation l l' -> find_max l = find_max l')
  /\ (forall l l' : list Qc, Permutation l l' -> find_max l = find_max l').
Proof.
  split; intros l l'.
  - apply (find_max_Permutation Z.le Z.le_refl Z.le_trans Z.le_antisymm
             Z_ltb_le Z_nltb_ge).
  - apply (find_max_Permutation Qcle Qcle_refl Qcle_trans Qcle_antisym
             Qc_ltb_le Qc_nltb_ge).
Qed.

Lemma find_max_order_independent_witness :
  find_max [3; 1; 4]%Z = find_max [4; 3; 1]%Z.
Proof.
  apply (proj1 find_max_order_independent).
  apply perm_trans with [3; 4; 1]%Z.
  - apply perm_skip, perm_swap.
  - apply perm_swap.
Defined.

(** The maximum of a concatenation is the larger of the two maxima, for
    [int]s and for [Fraction]s. *)
Theorem find_max_concatenation :
  (forall (l1 l2 : list Z) (m1 m2 : Z),
     find_max l1 = Return m1 -> find_max l2 = Return m2 ->
     find_max (l1 ++ l2)%list = Return (Z.max m1 m2))
  /\ (forall (l1 l2 : list Qc) (m1 m2 : Qc),
        find_max l1 = Return m1 -> find_max l2 = Return m2 ->
        find_max (l1 ++ l2)%list = Return (if Qc_ltb m1 m2 then m2 else m1)).
Proof.
  split; intros l1 l2 m1 m2 E1 E2.
  - rewrite (find_max_app Z.le Z.le_refl Z.le_trans Z.le_antisymm
               Z_ltb_le Z_nltb_ge l1 l2 m1 m2 E1 E2).
    f_equal. unfold max_step. int_ops.
    destruct (Z.ltb_spec m1 m2); lia.
  - apply (find_max_app Qcle Qcle_refl Qcle_trans Qcle_antisym
             Qc_ltb_le Qc_nltb_ge l1 l2 m1 m2 E1 E2).
Qed.

Lemma find_max_concatenation_witness :
  find_max ([3; 1] ++ [4; 1; 5])%list%Z = Return (Z.max 3 5).
Proof.
  apply (proj1 find_max_concatenation [3; 1]%Z [4; 1; 5]%Z 3%Z 5%Z);
    reflexivity.
Defined.

(** NaN compares below nothing and above nothing. *)
Lemma float_ltb_nan_l (x : float) : PrimFloat.ltb nan x = false.
Proof. rewrite ltb_spec. reflexivity. Qed.

Lemma float_ltb_nan_r (x : float) : PrimFloat.ltb x nan = false.
Proof.
  rewrite ltb_spec. change (Prim2SF nan) with S754_nan.
  destruct (Prim2SF x); reflexivity.
Qed.

Lemma fold_max_step_nan (rest : list float) :
  fold_left max_step rest nan = nan.
Proof.
  induction rest as [|y rest IH]; [reflexivity|].
  cbn [fold_left]. unfold max_step at 2. cbn [num_ltb Number_float].
  rewrite float_ltb_nan_l. exact IH.
Qed.

(** On [float]s a NaN defeats the scan of [max]: at the head of the list it
    is the answer whatever follows, and anywhere else it is passed over, so
    the answer is that of the list without it. *)
Theorem find_max_nan :
  (forall rest : list float, find_max (nan :: rest) = Return nan)
  /\ (forall (x : float) (l1 l2 : list float),
        find_max (x :: l1 ++ nan :: l2) = find_max (x :: l1 ++ l2)).
Proof.
  split.
  - intros rest. rewrite find_max_cons, fold_max_step_nan. reflexivity.
  - intros x l1 l2. rewrite !find_max_cons, !fold_left_app.
    cbn [fold_left]. unfold max_step at 2. cbn [num_ltb Number_float].
    rewrite float_ltb_nan_r. reflexivity.
Qed.

(** ** [find_max] and [add] *)

Section FindMaxShift.

Context {A : Type} `{Number A}.

Variable c : A.
Hypothesis ltb_add :
  forall x y, num_ltb (add c x) (add c y) = num_ltb x y.

Lemma fold_max_step_add (rest : list A) :
  forall x,
    fold_left max_step (map (add c) rest) (add c x)
    = add c (fold_left max_step rest x).
Proof.
  induction rest as [|y rest IH]; intros x; [reflexivity|].
  cbn [map fold_left]. rewrite <- IH. f_equal.
  unfold max_step. rewrite ltb_add. destruct (num_ltb x y); reflexivity.
Qed.

Lemma find_max_map_add (numbers : list A) :
  find_max (map (add c) numbers)
  = (m <- find_max numbers ;; Return (add c m)).
Proof.
  destruct numbers as [|x rest]; [reflexivity|].
  cbn [map]. rewrite !find_max_cons, fold_max_step_add. reflexivity.
Qed.

End FindMaxShift.

(** Adding one number to every item adds it to the maximum, and keeps the
    error of the empty list: [find_max([add(c, x) for x in numbers])] is
    [add(c, find_max(numbers))], for [int]s and for [Fraction]s. *)
Theorem find_max_of_shifted :
  (forall (c : Z) (numbers : list Z),
     find_max (map (add c) numbers)
     = (m <- find_max numbers ;; Return (add c m)))
  /\ (forall (c : Qc) (numbers : list Qc),
        find_max (map (add c) numbers)
        = (m <- find_max numbers ;; Return (add c m))).
Proof.
  split; intros c numbers; apply find_max_map_add; intros x y; unfold add.
  - int_ops. destruct (Z.ltb_spec (c + x) (c + y)), (Z.ltb_spec x y);
      try reflexivity; lia.
  - frac_ops.
    destruct (Qc_ltb (c + x) (c + y)) eqn:L1, (Qc_ltb x y) eqn:L2;
      try reflexivity; exfalso.
    + apply Qc_ltb_lt in L1. apply Qc_ltb_ge in L2.
      unfold Qclt, Qcle in *. rewrite !this_Qcplus in L1. lra.
    + apply Qc_ltb_ge in L1. apply Qc_ltb_lt in L2.
      unfold Qclt, Qcle in *. rewrite !this_Qcplus in L1. lra.
Qed.

(** ** [factorial]: recursion depth, absorbed [float]s *)

Lemma factorial_int_enough (k : nat) :
  forall fuel, (1 <= k <= fuel)%nat ->
    factorial fuel (Z.of_nat k) = Some (Return (product_1_to (Z.of_nat k))).
Proof.
  induction k as [|k IH]; intros fuel L; [lia|].
  destruct fuel as [|fuel]; [lia|].
  cbn [factorial]. int_ops.
  destruct (Z.ltb_spec (Z.of_nat (S k)) 0) as [?|_]; [lia|].
  destruct (Z.eqb_spec (Z.of_nat (S k)) 0) as [?|_]; [lia|].
  destruct (Z.eqb_spec (Z.of_nat (S k)) 1) as [E1|N1]; cbn [orb].
  - assert (k = 0%nat) as -> by lia. reflexivity.
  - replace (Z.of_nat (S k) - 1) with (Z.of_nat k) by lia.
    rewrite IH by lia. cbn [bind].
    rewrite product_1_to_succ. reflexivity.
Qed.

Lemma factorial_int_short (fuel : nat) :
  forall n : Z, (Z.of_nat fuel < n)%Z -> factorial fuel n = None.
Proof.
  induction fuel as [|fuel IH]; intros n L; [reflexivity|].
  cbn [factorial]. int_ops.
  destruct (Z.ltb_spec n 0) as [?|_]; [lia|].
  destruct (Z.eqb_spec n 0) as [?|_]; [lia|].
  destruct (Z.eqb_spec n 1) as [?|_]; [lia|]. cbn [orb].
  rewrite IH by lia. reflexivity.
Qed.

(** The recursion of [factorial] is as deep as its argument: for an [int]
    [n >= 1] the call completes exactly when [n] nested calls are allowed,
    and runs out of depth below that. *)
Theorem factorial_int_depth (n : Z) (fuel : nat) :
  1 <= n ->
  (factorial fuel n = None <-> (Z.of_nat fuel < n)%Z)
  /\ (factorial fuel n = Some (Return (product_1_to n))
      <-> (n <= Z.of_nat fuel)%Z).
Proof.
  intros Hn.
  destruct (Z.lt_ge_cases (Z.of_nat fuel) n) as [Short|Enough].
  - pose proof (factorial_int_short fuel n Short) as E.
    rewrite E. split; split; try discriminate; try lia; auto.
  - assert (factorial fuel n = Some (Return (product_1_to n))) as E.
    { rewrite <- (Z2Nat.id n) by lia. apply factorial_int_enough. lia. }
    rewrite E. split; split; try discriminate; try lia; auto.
Qed.

Lemma factorial_int_depth_witness :
  (factorial 4 5%Z = None <-> (Z.of_nat 4 < 5)%Z)
  /\ (factorial 4 5%Z = Some (Return (product_1_to 5))
      <-> (5 <= Z.of_nat 4)%Z).
Proof.
  exact (factorial_int_depth 5 4%nat ltac:(lia)).
Defined.

(** A [float] that subtracting 1 leaves unchanged, and that is neither
    negative nor a base case, never reaches a base case: at no recursion
    depth does [factorial] answer.  Infinity, NaN and [2.0**54] are such
    floats. *)
Theorem factorial_float_absorbed (n : float) :
  PrimFloat.ltb n 0 = false ->
  PrimFloat.eqb n 0 = false ->
  PrimFloat.eqb n 1 = false ->
  (n - 1)%float = n ->
  forall fuel : nat, factorial fuel n = None.
Proof.
  intros Neg Z0 Z1 Abs fuel.
  induction fuel as [|fuel IH]; [reflexivity|].
  cbn [factorial].
  cbn [num_ltb num_eqb num_zero num_one num_sub Number_float].
  rewrite Neg, Z0, Z1, Abs. cbn [orb]. rewrite IH. reflexivity.
Qed.

Lemma factorial_float_absorbed_witness :
  (forall fuel : nat, factorial fuel 0x1p+54%float = None)
  /\ (forall fuel : nat, factorial fuel infinity = None)
  /\ (forall fuel : nat, factorial fuel nan = None).
Proof.
  split; [|split].
  - apply (factorial_float_absorbed 0x1p+54%float); reflexivity.
  - apply (factorial_float_absorbed infinity); reflexivity.
  - apply (factorial_float_absorbed nan); reflexivity.
Defined.

Lemma product_1_to_lower (k : nat) :
  1 <= product_1_to (Z.of_nat k) /\ Z.of_nat k <= product_1_to (Z.of_nat k).
Proof.
  induction k as [|k [IH1 IH2]].
  - split; [reflexivity|]. cbn. lia.
  - rewrite product_1_to_succ. split; nia.
Qed.

(** On an [int] [n >= 0], whatever [factorial] returns is at least 1 and at
    least [n]; in particular it is never zero. *)
Theorem factorial_int_lower_bound (n : Z) (fuel : nat) (r : Z) :
  0 <= n ->
  factorial fuel n = Some (Return r) ->
  1 <= r /\ n <= r.
Proof.
  intros Hn E.
  pose proof (factorial_int_nat (Z.to_nat n) (S (Z.to_nat n + fuel))
                ltac:(lia)) as F.
  rewrite (Z2Nat.id n Hn) in F.
  rewrite (factorial_fuel_mono fuel n _ E (S (Z.to_nat n + fuel))) in F by lia.
  injection F as ->.
  rewrite <- (Z2Nat.id n Hn). apply product_1_to_lower.
Qed.

Lemma factorial_int_lower_bound_witness : 1 <= 120 /\ 5 <= 120.
Proof.
  exact (factorial_int_lower_bound 5 6%nat 120 ltac:(lia) ltac:(reflexivity)).
Defined.

(** ** [is_valid_email]: what decides the answer *)

Lemma append_assoc (s t u : string) : (s ++ t) ++ u = s ++ (t ++ u).
Proof.
  induction s as [|c s IH]; [reflexivity|].
  cbn [append]. rewrite IH. reflexivity.
Qed.

Lemma count_char_app (c : ascii) (s t : string) :
  count_char c (s ++ t) = (count_char c s + count_char c t)%nat.
Proof.
  induction s as [|x s IH]; [reflexivity|].
  cbn [append count_char]. rewrite IH. lia.
Qed.

Lemma count_char_0 (c : ascii) (s : string) :
  count_char c s = 0%nat <-> has_char c s = false.
Proof.
  induction s as [|x s IH]; [split; reflexivity|].
  cbn [count_char has_char]. rewrite orb_false_iff, <- IH.
  destruct (Ascii.eqb x c); split; intros E;
    solve [lia | destruct E; discriminate | split; [reflexivity|lia]].
Qed.

(** A prefix without the separator joins the first piece. *)
Lemma split_prefix (sep : ascii) (x s : string) :
  has_char sep x = false ->
  split sep (x ++ s)
  = match split sep s with
    | p :: ps => (x ++ p) :: ps
    | [] => []
    end.
Proof.
  induction x as [|c x IH]; cbn [append has_char]; intros E.
  - destruct (split sep s); reflexivity.
  - apply orb_false_iff in E. destruct E as [Ec Ex].
    cbn [split]. rewrite Ec, (IH Ex).
    pose proof (split_not_nil sep s) as NN.
    destruct (split sep s) as [|p ps]; [congruence|]. reflexivity.
Qed.

Lemma is_valid_email_split (email : string) :
  is_valid_email email
  = match split "@" email with
    | [_; domain] => str_in "." domain
    | _ => false
    end.
Proof.
  rewrite is_valid_email_rule. unfold email_rule.
  destruct (String.eqb_spec email "") as [->|_]; [reflexivity|].
  destruct (has_char "@" email) eqn:At; cbn [negb].
  - pose proof (join_split "@" email) as J.
    destruct (split "@" email) as [|p [|q [|r ps]]];
      try (destruct (has_char "." email); reflexivity).
    cbn [join] in J. rewrite str_in_char.
    destruct (has_char "." email) eqn:Dot; cbn [negb].
    + destruct (has_char "." q); reflexivity.
    + rewrite <- J, has_char_app in Dot. cbn [has_char] in Dot.
      apply orb_false_iff in Dot. destruct Dot as [_ Dot].
      apply orb_false_iff in Dot. destruct Dot as [_ Dot].
      rewrite Dot. reflexivity.
  - rewrite (split_no_sep _ _ At). reflexivity.
Qed.

(** The three tests of the first [if] of [is_valid_email] never change the
    answer: the string is accepted exactly when splitting it on ["@"] gives
    two parts and the second holds a ["."]. *)
Theorem is_valid_email_guard_redundant (email : string) :
  is_valid_email email
  = match split "@" email with
    | [_; domain] => has_char "." domain
    | _ => false
    end.
Proof.
  rewrite is_valid_email_split.
  destruct (split "@" email) as [|p [|q [|r ps]]]; try reflexivity.
  apply str_in_char.
Qed.

(** A string is accepted exactly when it holds one ["@"] and a ["."]
    somewhere after it; nothing else about it matters. *)
Theorem is_valid_email_one_at (email : string) :
  is_valid_email email = true
  <-> count_char "@" email = 1%nat
      /\ exists local domain : string,
           email = local ++ String "@" domain
           /\ has_char "." domain = true.
Proof.
  rewrite is_valid_email_iff. split.
  - intros (l & d & -> & Nl & Nd & Dd). split.
    + rewrite count_char_app. cbn [count_char]. rewrite Ascii.eqb_refl.
      apply count_char_0 in Nl. apply count_char_0 in Nd.
      rewrite Nl, Nd. reflexivity.
    + exists l, d. split; [reflexivity|exact Dd].
  - intros (C & l & d & -> & Dd).
    rewrite count_char_app in C. cbn [count_char] in C.
    rewrite Ascii.eqb_refl in C.
    exists l, d. repeat split; try exact Dd; apply count_char_0; lia.
Qed.

(** The text before the ["@"] is never looked at: putting any text without
    ["@"] in front of a string does not change the answer. *)
Theorem is_valid_email_local_part_ignored (x email : string) :
  has_char "@" x = false ->
  is_valid_email (x ++ email) = is_valid_email email.
Proof.
  intros Nx. rewrite !is_valid_email_split.
  rewrite (split_prefix _ _ _ Nx).
  destruct (split "@" email) as [|p [|q [|r ps]]]; reflexivity.
Qed.

Lemma is_valid_email_local_part_ignored_witness :
  is_valid_email ("first.last" ++ "@b.com") = is_valid_email "@b.com".
Proof.
  apply (is_valid_email_local_part_ignored "first.last" "@b.com").
  reflexivity.
Defined.

(** Text without ["@"] added at the end of an accepted string leaves it
    accepted. *)
Theorem is_valid_email_suffix (email y : string) :
  has_char "@" y = false ->
  is_valid_email email = true ->
  is_valid_email (email ++ y) = true.
Proof.
  intros Ny V. apply is_valid_email_iff in V.
  destruct V as (l & d & -> & Nl & Nd & Dd).
  apply is_valid_email_iff. exists l, (d ++ y).
  rewrite append_assoc. cbn [append]. repeat split.
  - exact Nl.
  - rewrite has_char_app, Nd, Ny. reflexivity.
  - rewrite has_char_app, Dd. reflexivity.
Qed.

Lemma is_valid_email_suffix_witness :
  is_valid_email ("a@b.com" ++ ".au") = true.
Proof.
  apply (is_valid_email_suffix "a@b.com" ".au"); reflexivity.
Defined.

(** ** [Calculator]: undoing, reordering, resetting *)

Section CalculatorSequences.

Context {A : Type} `{Number A}.

Lemma run_app (l1 : list (Calculator.call A)) :
  forall (self : Calculator.t A) (l2 : list (Calculator.call A)),
    Calculator.run self (l1 ++ l2)%list
    = ((fst (Calculator.run self l1)
          ++ fst (Calculator.run (snd (Calculator.run self l1)) l2))%list,
       snd (Calculator.run (snd (Calculator.run self l1)) l2)).
Proof.
  induction l1 as [|c l1 IH]; intros self l2.
  - cbn [app Calculator.run fst snd].
    destruct (Calculator.run self l2). reflexivity.
  - cbn [app]. rewrite !run_cons, IH. reflexivity.
Qed.

(** After [reset()] an instance cannot be told from a new one: the calls
    made before leave no trace in what the later calls return. *)
Lemma run_after_reset (self : Calculator.t A)
      (l1 l2 : list (Calculator.call A)) :
  Calculator.run self (l1 ++ Calculator.Reset :: l2)%list
  = ((fst (Calculator.run self l1)
        ++ num_zero :: fst (Calculator.run Calculator.init l2))%list,
     snd (Calculator.run Calculator.init l2)).
Proof.
  rewrite run_app, run_cons. reflexivity.
Qed.

Section Exact.

Variable opp : A -> A.
Hypothesis Rth :
  ring_theory num_zero num_one num_add num_mul num_sub opp (@eq A).

Add Ring number_ring_sequences : Rth.

Lemma sum_added_Permutation (l l' : list (Calculator.call A)) :
  Permutation l l' -> sum_added l = sum_added l'.
Proof.
  induction 1 as [|c l l' P IH|c c' l|l l' l'' P1 IH1 P2 IH2].
  - reflexivity.
  - destruct c; cbn [sum_added]; rewrite IH; reflexivity.
  - destruct c, c'; cbn [sum_added]; ring.
  - rewrite IH1. exact IH2.
Qed.

Lemma sum_subtracted_Permutation (l l' : list (Calculator.call A)) :
  Permutation l l' -> sum_subtracted l = sum_subtracted l'.
Proof.
  induction 1 as [|c l l' P IH|c c' l|l l' l'' P1 IH1 P2 IH2].
  - reflexivity.
  - destruct c; cbn [sum_subtracted]; rewrite IH; reflexivity.
  - destruct c, c'; cbn [sum_subtracted]; ring.
  - rewrite IH1. exact IH2.
Qed.

Lemma existsb_is_reset_Permutation (l l' : list (Calculator.call A)) :
  Permutation l l' -> existsb is_reset l = existsb is_reset l'.
Proof.
  induction 1 as [|c l l' P IH|c c' l|l l' l'' P1 IH1 P2 IH2].
  - reflexivity.
  - cbn [existsb]. rewrite IH. reflexivity.
  - cbn [existsb]. destruct (is_reset c), (is_reset c'); reflexivity.
  - rewrite IH1. exact IH2.
Qed.

Lemma run_Permutation (self : Calculator.t A)
      (l l' : list (Calculator.call A)) :
  existsb is_reset l = false ->
  Permutation l l' ->
  Calculator.result (snd (Calculator.run self l))
  = Calculator.result (snd (Calculator.run self l')).
Proof.
  intros R P.
  pose proof R as R'. rewrite (existsb_is_reset_Permutation _ _ P) in R'.
  rewrite !(run_from opp Rth), R, R'.
  rewrite (since_reset_no_reset l R), (since_reset_no_reset l' R').
  rewrite (sum_added_Permutation _ _ P), (sum_subtracted_Permutation _ _ P).
  reflexivity.
Qed.

Lemma add_subtract_undo (self : Calculator.t A) (value : A) :
  Calculator.subtract (snd (Calculator.add self value)) value
  = (Calculator.result self, self)
  /\ Calculator.add (snd (Calculator.subtract self value)) value
     = (Calculator.result self, self).
Proof.
  destruct self as [r].
  unfold Calculator.subtract, Calculator.add. cbn [snd Calculator.result].
  assert (num_sub (num_add r value) value = r) as -> by ring.
  assert (num_add (num_sub r value) value = r) as -> by ring.
  split; reflexivity.
Qed.

End Exact.

End CalculatorSequences.

(** [reset()] makes an instance indistinguishable from a new one, whatever
    the numeric type: the calls after a [reset()] return what they return on
    a new instance and leave the same [result], and the [reset()] itself
    returns zero. *)
Theorem calculator_reset_forgets :
  forall (A : Type) (N : Number A) (self : Calculator.t A)
         (before after : list (Calculator.call A)),
    Calculator.run self (before ++ Calculator.Reset :: after)%list
    = ((fst (Calculator.run self before)
          ++ num_zero :: fst (Calculator.run Calculator.init after))%list,
       snd (Calculator.run Calculator.init after)).
Proof.
  intros A N self before after. apply run_after_reset.
Qed.

(** On [int]s and on [Fraction]s, [subtract(v)] undoes [add(v)] and
    [add(v)] undoes [subtract(v)]: the second call returns the [result] of
    before the first and leaves the instance as it was. *)
Theorem calculator_add_subtract_undo :
  (forall (self : Calculator.t Z) (value : Z),
     Calculator.subtract (snd (Calculator.add self value)) value
     = (Calculator.result self, self)
     /\ Calculator.add (snd (Calculator.subtract self value)) value
        = (Calculator.result self, self))
  /\ (forall (self : Calculator.t Qc) (value : Qc),
        Calculator.subtract (snd (Calculator.add self value)) value
        = (Calculator.result self, self)
        /\ Calculator.add (snd (Calculator.subtract self value)) value
           = (Calculator.result self, self)).
Proof.
  split.
  - apply (@add_subtract_undo Z Number_int Z.opp Zth).
  - apply (@add_subtract_undo Qc Number_Fraction Qcopp Qcrt).
Qed.

(** On [int]s and on [Fraction]s, the order of [add] and [subtract] calls
    does not matter: two sequences without [reset()] that are permutations
    of one another leave the same [result], from any instance. *)
Theorem calculator_order_independent :
  (forall (self : Calculator.t Z) (l l' : list (Calculator.call Z)),
     existsb is_reset l = false ->
     Permutation l l' ->
     Calculator.result (snd (Calculator.run self l))
     = Calculator.result (snd (Calculator.run self l')))
  /\ (forall (self : Calculator.t Qc) (l l' : list (Calculator.call Qc)),
        existsb is_reset l = false ->
        Permutation l l' ->
        Calculator.result (snd (Calculator.run self l))
        = Calculator.result (snd (Calculator.run self l'))).
Proof.
  split.
  - apply (@run_Permutation Z Number_int Z.opp Zth).
  - apply (@run_Permutation Qc Number_Fraction Qcopp Qcrt).
Qed.

Lemma calculator_order_independent_witness :
  Calculator.result
    (snd (Calculator.run Calculator.init
            [Calculator.Add 5; Calculator.Subtract 2]%Z))
  = Calculator.result
      (snd (Calculator.run Calculator.init
              [Calculator.Subtract 2; Calculator.Add 5]%Z)).
Proof.
  apply (proj1 calculator_order_independent).
  - reflexivity.
  - apply perm_swap.
Defined.
